(** * Offline-first queue, sync and cache layer of poleshift-tauri

    A shallow embedding of

    - the class [OperationQueue],
    - the class [SyncService]   (lib/services/SyncService.ts),
    - the hook [useStorage]     (src/lib/hooks/useStorage.ts),
    - the class [AuthService]   (lib/services/AuthService.ts),

    as programs of a state-and-exception monad over a [World]: the local
    IndexedDB store, the chronological trace of every call made to an
    external collaborator (together with the answer it gave), and the
    counters of the two impure primitives [uuidv4] and [Date.now].

    [async]/[await] code is sequential: an [await] is a bind.  Calls to
    [console.*] are not recorded.  [signIn] and [signOut] take the answer
    of their auth call and the content of [localStorage] as arguments. *)

From Stdlib Require Import ZArith.
From stdpp Require Import base option list gmap strings sorting pretty.

Local Open Scope string_scope.
Local Open Scope Z_scope.
Local Open Scope list_scope.

(** ** Data model *)

(** A thrown JavaScript value; only its message is kept. *)
Definition Err := string.

(** The [data] of a pending operation.  [op.data.id] is [undefined] when
    the payload carries no [id]. *)
Record Payload := {
  payload_id : option string;
  payload_fields : list (string * string);
}.

(** A row of a remote table, keyed by its primary key. *)
Record Row := {
  row_id : string;
  row_fields : list (string * string);
}.

Inductive OpType := create | update | delete_.

(** [Omit<PendingOperation, 'id' | 'timestamp' | 'retryCount'>] *)
Record OperationIntent := {
  intent_type : OpType;
  intent_table : string;
  intent_data : Payload;
}.

Record PendingOperation := {
  op_id : string;
  op_type : OpType;
  op_table : string;
  op_data : Payload;
  timestamp : Z;
  retryCount : Z;
}.

Record File := {
  file_name : string;
  file_content : string;
}.

Inductive UploadStatus := queued | uploading | done_ | failed.

Record UploadTask := {
  task_id : string;
  task_file : File;
  task_path : string;
  task_bucket : string;
  retries : Z;
  status : UploadStatus;
  progress : Z;
}.

Record Session := {
  access_token : string;
  expires_at : option Z;
}.

(** The user object of the hosted auth service. *)
Record RemoteUser := {
  ru_id : string;
  ru_email : option string;
  ru_last_sign_in_at : option string;
}.

Record User := {
  user_id : string;
  user_email : string;
  last_sign_in_at : option string;
}.

Record UserProfile := {
  profile_id : string;
  organization_id : option string;
  profile_fields : list (string * string);
}.

Record Organization := {
  org_id : string;
  org_fields : list (string * string);
}.

#[global] Instance Payload_eq_dec : EqDecision Payload.
Proof. solve_decision. Defined.
#[global] Instance Row_eq_dec : EqDecision Row.
Proof. solve_decision. Defined.
#[global] Instance OpType_eq_dec : EqDecision OpType.
Proof. solve_decision. Defined.
#[global] Instance PendingOperation_eq_dec : EqDecision PendingOperation.
Proof. solve_decision. Defined.
#[global] Instance File_eq_dec : EqDecision File.
Proof. solve_decision. Defined.
#[global] Instance UploadStatus_eq_dec : EqDecision UploadStatus.
Proof. solve_decision. Defined.
#[global] Instance UploadTask_eq_dec : EqDecision UploadTask.
Proof. solve_decision. Defined.

(** ** External collaborators and the trace *)

(** [{ data, error }] of [storage.from(bucket).upload(path, file)]. *)
Inductive UploadResponse :=
| UploadData (path : string)
| UploadNoData
| UploadError (error : Err).

(** [{ data, error }] of [storage.from(bucket).list(path)]. *)
Inductive ListResponse :=
| ListData (entries : list string)
| ListNoData
| ListError (error : Err).

(** [{ data, error }] of an auth call or of a [.single()] select; the call
    itself may also throw. *)
Inductive Response (A : Type) :=
| Answered (data : option A) (error : option Err)
| Thrown (error : Err).
Arguments Answered {A} data error.
Arguments Thrown {A} error.

Inductive Variant := info | success | warning | error_.

(** One entry per call that leaves the module, with the answer received. *)
Inductive Event :=
| EvInsert (table : string) (data : Payload) (error : option Err)
| EvUpdate (table : string) (data : Payload) (id : option string)
    (error : option Err)
| EvDelete (table : string) (id : option string) (error : option Err)
| EvSelect (table orgId : string) (since : option Z)
    (answer : Err + list Row)
| EvUpload (bucket path : string) (file : File) (answer : UploadResponse)
| EvList (bucket path : string) (answer : ListResponse)
| EvAuthGetSession (answer : Response Session)
| EvAuthGetUser (answer : Response RemoteUser)
| EvSelectProfile (userId : string) (answer : Response UserProfile)
| EvSelectOrganization (orgId : string) (answer : Response Organization)
| EvSnackbar (message : string) (variant : Variant)
| EvProgress (filesProcessed totalFiles : nat).

(** An event that reaches the remote service (database, object storage or
    auth), as opposed to the user interface. *)
Definition is_remote (e : Event) : bool :=
  match e with
  | EvSnackbar _ _ | EvProgress _ _ => false
  | _ => true
  end.

(** The environment the code runs in.  Every remote answer may depend on
    the whole history of earlier calls.  [uuidv4 n] and [Date_now n] are
    the values returned by the [n]-th call of the primitive.
    [handleError] is the inherited [BaseService.handleError], whose body is
    not part of the sources at hand: [None] when it returns normally,
    [Some e] when it throws [e]. *)
Record Env := {
  uuidv4 : nat → string;
  Date_now : nat → Z;
  connector : bool;
  remote_insert : list Event → string → Payload → option Err;
  remote_update : list Event → string → Payload → option string → option Err;
  remote_delete : list Event → string → option string → option Err;
  remote_select :
    list Event → string → string → option Z → Err + list Row;
  storage_upload : list Event → string → string → File → UploadResponse;
  storage_list : list Event → string → string → ListResponse;
  auth_getSession : list Event → Response Session;
  auth_getUser : list Event → Response RemoteUser;
  select_profile : list Event → string → Response UserProfile;
  select_organization : list Event → string → Response Organization;
  handleError : Err → string → option Err;
}.

(** ** The local store *)

Record Store := {
  pending_operations : gmap string PendingOperation;
  pending_uploads : gmap string UploadTask;
  tables : gmap string (gmap string Row);
  sessions : option Session;
  users : option User;
  user_profiles : gmap string UserProfile;
  organizations : gmap string Organization;
}.

Definition set_pending_operations (f : gmap string PendingOperation →
    gmap string PendingOperation) (s : Store) : Store :=
  {| pending_operations := f (pending_operations s);
     pending_uploads := pending_uploads s; tables := tables s;
     sessions := sessions s; users := users s;
     user_profiles := user_profiles s; organizations := organizations s |}.

Definition set_pending_uploads (f : gmap string UploadTask →
    gmap string UploadTask) (s : Store) : Store :=
  {| pending_operations := pending_operations s;
     pending_uploads := f (pending_uploads s); tables := tables s;
     sessions := sessions s; users := users s;
     user_profiles := user_profiles s; organizations := organizations s |}.

Definition set_tables (f : gmap string (gmap string Row) →
    gmap string (gmap string Row)) (s : Store) : Store :=
  {| pending_operations := pending_operations s;
     pending_uploads := pending_uploads s; tables := f (tables s);
     sessions := sessions s; users := users s;
     user_profiles := user_profiles s; organizations := organizations s |}.

Definition set_sessions (v : option Session) (s : Store) : Store :=
  {| pending_operations := pending_operations s;
     pending_uploads := pending_uploads s; tables := tables s;
     sessions := v; users := users s;
     user_profiles := user_profiles s; organizations := organizations s |}.

Definition set_users (v : option User) (s : Store) : Store :=
  {| pending_operations := pending_operations s;
     pending_uploads := pending_uploads s; tables := tables s;
     sessions := sessions s; users := v;
     user_profiles := user_profiles s; organizations := organizations s |}.

Definition set_user_profiles (f : gmap string UserProfile →
    gmap string UserProfile) (s : Store) : Store :=
  {| pending_operations := pending_operations s;
     pending_uploads := pending_uploads s; tables := tables s;
     sessions := sessions s; users := users s;
     user_profiles := f (user_profiles s);
     organizations := organizations s |}.

Definition set_organizations (f : gmap string Organization →
    gmap string Organization) (s : Store) : Store :=
  {| pending_operations := pending_operations s;
     pending_uploads := pending_uploads s; tables := tables s;
     sessions := sessions s; users := users s;
     user_profiles := user_profiles s;
     organizations := f (organizations s) |}.

Definition empty_store : Store :=
  {| pending_operations := ∅; pending_uploads := ∅; tables := ∅;
     sessions := None; users := None; user_profiles := ∅;
     organizations := ∅ |}.

Record World := {
  store : Store;
  trace : list Event;
  uuid_calls : nat;
  clock_calls : nat;
}.

Definition initial_world : World :=
  {| store := empty_store; trace := []; uuid_calls := 0; clock_calls := 0 |}.

(** ** The monad: state passing with exceptions *)

Inductive Result (A : Type) :=
| Ok (value : A)
| Throw (error : Err).
Arguments Ok {A} value.
Arguments Throw {A} error.

Definition M (A : Type) : Type := World → Result A * World.

Definition ret {A} (a : A) : M A := λ w, (Ok a, w).

Definition bind {A B} (m : M A) (k : A → M B) : M B :=
  λ w, match m w with
       | (Ok a, w') => k a w'
       | (Throw e, w') => (Throw e, w')
       end.

Definition throw {A} (e : Err) : M A := λ w, (Throw e, w).

(** [try { body } catch (error) { handler }] *)
Definition try_catch {A} (body : M A) (handler : Err → M A) : M A :=
  λ w, match body w with
       | (Ok a, w') => (Ok a, w')
       | (Throw e, w') => handler e w'
       end.

Notation "'let*' x ':=' m 'in' k" := (bind m (λ x, k))
  (at level 10, x name, m at level 100, k at level 200,
   format "'let*'  x  ':='  m  'in'  '/' k").
Notation "m ;;; k" := (bind m (λ _, k))
  (at level 100, k at level 200, right associativity).

(** [for (const x of l) { body x }] *)
Fixpoint for_each {A} (body : A → M unit) (l : list A) : M unit :=
  match l with
  | [] => ret tt
  | x :: l' => body x ;;; for_each body l'
  end.

Definition get_store : M Store := λ w, (Ok (store w), w).

Definition modify_store (f : Store → Store) : M unit :=
  λ w, (Ok tt, {| store := f (store w); trace := trace w;
                  uuid_calls := uuid_calls w;
                  clock_calls := clock_calls w |}).

(** Perform an external call: ask [oracle] for the answer in the current
    history and append the event built from it. *)
Definition call {A} (oracle : list Event → A) (ev : A → Event) : M A :=
  λ w, let a := oracle (trace w) in
       (Ok a, {| store := store w; trace := trace w ++ [ev a];
                 uuid_calls := uuid_calls w;
                 clock_calls := clock_calls w |}).

Definition emit (e : Event) : M unit :=
  λ w, (Ok tt, {| store := store w; trace := trace w ++ [e];
                  uuid_calls := uuid_calls w;
                  clock_calls := clock_calls w |}).

(** ** IndexedDBStorage (lib/storage/IndexedDB.ts) *)

Definition earlier (a b : PendingOperation) : Prop :=
  timestamp a ≤ timestamp b.

#[global] Instance earlier_dec a b : Decision (earlier a b).
Proof. unfold earlier. apply _. Defined.

Module IndexedDBStorage.

(** Modelled from the spec: the pending-operations region of
    [IndexedDBStorage], whose source is missing.  The spec describes a
    record store keyed by operation id: [enqueue] "persists" the
    operation, [remove(id)] "deletes the operation; idempotent if
    already absent", [updateRetryCount] "persists retryCount + 1", and
    draining "read[s] all pending operations ordered by timestamp". *)
Definition addPendingOperation (op : PendingOperation) : M unit :=
  modify_store (set_pending_operations (insert (op_id op) op)).

Definition updatePendingOperation (op : PendingOperation) : M unit :=
  modify_store (set_pending_operations (insert (op_id op) op)).

Definition deletePendingOperation (operationId : string) : M unit :=
  modify_store (set_pending_operations (delete operationId)).

Definition getPendingOperationsOrderedByTimestamp :
    M (list PendingOperation) :=
  let* s := get_store in
  ret (merge_sort earlier (map_to_list (pending_operations s)).*2).

(** Modelled from the spec: [IndexedDBStorage.bulkSave], whose source is
    missing: it "bulk-writes the result set into the Local Store, fully
    replacing or upserting by primary key". *)
Definition upsert (t : gmap string Row) (r : Row) : gmap string Row :=
  <[row_id r := r]> t.

Definition bulkSave (table : string) (data : list Row) : M unit :=
  modify_store (set_tables (λ ts,
    <[table := foldl upsert (default ∅ (ts !! table)) data]> ts)).

(** Modelled from the spec: the cached auth entities of
    [IndexedDBStorage], whose source is missing: "local mirrors ... each
    with a save/get/remove lifecycle keyed by entity id or singleton
    slot". *)
Definition getSession : M (option Session) :=
  let* s := get_store in ret (sessions s).

Definition saveSession (session : Session) : M unit :=
  modify_store (set_sessions (Some session)).

Definition getUser : M (option User) :=
  let* s := get_store in ret (users s).

Definition saveUser (user : User) : M unit :=
  modify_store (set_users (Some user)).

Definition getUserProfile (userId : string) : M (option UserProfile) :=
  let* s := get_store in ret (user_profiles s !! userId).

Definition saveUserProfile (profile : UserProfile) : M unit :=
  modify_store (set_user_profiles (insert (profile_id profile) profile)).

Definition getOrganization (orgId : string) : M (option Organization) :=
  let* s := get_store in ret (organizations s !! orgId).

Definition saveOrganization (organization : Organization) : M unit :=
  modify_store (set_organizations (insert (org_id organization)
                                          organization)).

(** Modelled from the spec: the removal half of the "save/get/remove
    lifecycle" of the cached auth entities, and [clearStore], which
    empties the named record store; both are missing with the rest of
    [IndexedDBStorage]. *)
Definition removeSession : M unit :=
  modify_store (set_sessions None).

Definition removeUser : M unit :=
  modify_store (set_users None).

Definition clearStore (storeName : string) : M unit :=
  if decide (storeName = "user_profiles")
  then modify_store (set_user_profiles (λ _, ∅))
  else if decide (storeName = "organizations")
  then modify_store (set_organizations (λ _, ∅))
  else if decide (storeName = "pending_operations")
  then modify_store (set_pending_operations (λ _, ∅))
  else if decide (storeName = "pending_uploads")
  then modify_store (set_pending_uploads (λ _, ∅))
  else if decide (storeName = "sessions")
  then modify_store (set_sessions None)
  else if decide (storeName = "users")
  then modify_store (set_users None)
  else modify_store (set_tables (delete storeName)).

End IndexedDBStorage.

(** ** utils/uploadQueue *)

Module uploadQueue.

(** Modelled from the spec: the upload-queue helpers of
    [utils/uploadQueue], whose source is missing: "a parallel queue,
    keyed by file task", a named record store [pending_uploads] of the
    Local Store. *)
Definition addToQueue (task : UploadTask) : M unit :=
  modify_store (set_pending_uploads (insert (task_id task) task)).

Definition updateQueueItem (task : UploadTask) : M unit :=
  modify_store (set_pending_uploads (insert (task_id task) task)).

Definition removeFromQueue (id : string) : M unit :=
  modify_store (set_pending_uploads (delete id)).

Definition getAllQueuedUploads : M (list UploadTask) :=
  let* s := get_store in ret (map_to_list (pending_uploads s)).*2.

End uploadQueue.

(** ** The impure primitives *)

Definition next_uuid (E : Env) : M string :=
  λ w, (Ok (uuidv4 E (uuid_calls w)),
        {| store := store w; trace := trace w;
           uuid_calls := S (uuid_calls w);
           clock_calls := clock_calls w |}).

Definition now (E : Env) : M Z :=
  λ w, (Ok (Date_now E (clock_calls w)),
        {| store := store w; trace := trace w;
           uuid_calls := uuid_calls w;
           clock_calls := S (clock_calls w) |}).

(** ** OperationQueue *)

Module OperationQueue.
Section OperationQueue.
Context (E : Env).

Definition MAX_RETRIES : Z := 3.

Definition enqueue (operation : OperationIntent) : M unit :=
  let* id := next_uuid E in
  let* t := now E in
  let queuedOperation :=
    {| op_id := id;
       op_type := intent_type operation;
       op_table := intent_table operation;
       op_data := intent_data operation;
       timestamp := t;
       retryCount := 0 |} in
  IndexedDBStorage.addPendingOperation queuedOperation.

Definition dequeue : M (option PendingOperation) :=
  let* operations :=
    IndexedDBStorage.getPendingOperationsOrderedByTimestamp in
  ret (if decide (0 < length operations)%nat then operations !! 0%nat
       else None).

Definition remove (operationId : string) : M unit :=
  IndexedDBStorage.deletePendingOperation operationId.

Definition shouldRetry (operation : PendingOperation) : M bool :=
  ret (bool_decide (retryCount operation < MAX_RETRIES)).

Definition updateRetryCount (operation : PendingOperation) : M unit :=
  let updatedOperation :=
    {| op_id := op_id operation;
       op_type := op_type operation;
       op_table := op_table operation;
       op_data := op_data operation;
       timestamp := timestamp operation;
       retryCount := retryCount operation + 1 |} in
  IndexedDBStorage.updatePendingOperation updatedOperation.

End OperationQueue.
End OperationQueue.

(** ** BaseService *)

(** Modelled from the spec: [BaseService.handleError], whose source is
    missing.  For the sync path the spec says that "the failure is
    surfaced by the remote-CRUD contract ... and handled by the caller"
    and that errors "propagate to the caller": the handler logs and
    throws the error it was given. *)
Definition rethrow (error : Err) (message : string) : option Err :=
  Some error.

(** ** SyncService *)

Module SyncService.
Section SyncService.
Context (E : Env).

(** [this.handleError(error, message)] *)
Definition handle (error : Err) (message : string) : M unit :=
  match handleError E error message with
  | Some e => throw e
  | None => ret tt
  end.

Definition createRemote (table : string) (data : Payload) : M unit :=
  try_catch
    (let* error := call (λ h, remote_insert E h table data)
                        (EvInsert table data) in
     match error with Some e => throw e | None => ret tt end)
    (λ error, handle error ("Failed to create remote " +:+ table)).

Definition updateRemote (table : string) (data : Payload) : M unit :=
  try_catch
    (let* error :=
       call (λ h, remote_update E h table data (payload_id data))
            (EvUpdate table data (payload_id data)) in
     match error with Some e => throw e | None => ret tt end)
    (λ error, handle error ("Failed to update remote " +:+ table)).

Definition deleteRemote (table : string) (id : option string) : M unit :=
  try_catch
    (let* error := call (λ h, remote_delete E h table id)
                        (EvDelete table id) in
     match error with Some e => throw e | None => ret tt end)
    (λ error, handle error ("Failed to delete remote " +:+ table)).

(** The largest time value a [Date] can hold; [toISOString] throws a
    [RangeError] beyond it. *)
Definition MAX_TIME_VALUE : Z := 8640000000000000.

(** [if (since) query = query.gt('updated_at',
    new Date(since).toISOString())]: the filter in force, if any. *)
Definition since_filter (since : option Z) : M (option Z) :=
  match since with
  | None => ret None
  | Some t =>
      if decide (t = 0) then ret None
      else if decide (Z.abs t ≤ MAX_TIME_VALUE) then ret (Some t)
      else throw "Invalid time value"
  end.

Definition syncFromRemote (table orgId : string) (since : option Z) :
    M unit :=
  try_catch
    (let* filter := since_filter since in
     let* answer := call (λ h, remote_select E h table orgId filter)
                         (EvSelect table orgId filter) in
     match answer with
     | inl error => throw error
     | inr data =>
         if decide (0 < length data)%nat
         then IndexedDBStorage.bulkSave table data
         else ret tt
     end)
    (λ error, handle error ("Failed to sync " +:+ table +:+
                            " from remote")).

(** The remote call an operation is dispatched to by its type. *)
Definition dispatch (op : PendingOperation) : M unit :=
  match op_type op with
  | create => createRemote (op_table op) (op_data op)
  | update => updateRemote (op_table op) (op_data op)
  | delete_ => deleteRemote (op_table op) (payload_id (op_data op))
  end.

(** The body of the loop of [syncToRemote]. *)
Definition syncOperation (op : PendingOperation) : M unit :=
  dispatch op ;;;
  IndexedDBStorage.deletePendingOperation (op_id op).

Definition syncToRemote : M unit :=
  try_catch
    (let* pendingOps :=
       IndexedDBStorage.getPendingOperationsOrderedByTimestamp in
     for_each syncOperation pendingOps)
    (λ error, handle error "Failed to sync to remote").

End SyncService.
End SyncService.

(** ** The useStorage hook *)

(** The double-quote character of the notification texts. *)
Definition dq : string := String (Ascii.ascii_of_nat 34) EmptyString.

Definition quoted (name : string) : string := dq +:+ name +:+ dq.

Module useStorage.
Section useStorage.
Context (E : Env).

(** [isOnline] is the network status the hook was rendered with. *)
Context (isOnline : bool).

Definition enqueueSnackbar (message : string) (variant : Variant) :
    M unit :=
  emit (EvSnackbar message variant).

Definition getStorageClient : M unit :=
  if connector E then ret tt else throw "No auth connector available".

Definition uploadFile (file : File) (path bucket : string) : M string :=
  try_catch
    (getStorageClient ;;;
     let* answer := call (λ h, storage_upload E h bucket path file)
                         (EvUpload bucket path file) in
     match answer with
     | UploadError error => throw error
     | UploadNoData => throw "Upload failed"
     | UploadData p => ret p
     end)
    (λ error, throw error).

Definition fileExists (path : string) : M bool :=
  try_catch
    (getStorageClient ;;;
     let* answer := call (λ h, storage_list E h "processed-data" path)
                         (EvList "processed-data" path) in
     match answer with
     | ListError error => throw error
     | ListNoData => throw "Cannot read properties of null"
     | ListData data => ret (bool_decide (0 < length data)%nat)
     end)
    (λ _, ret false).

(** The body of the loop of [processUploadQueue]. *)
Definition processUploadTask (uploadTask : UploadTask) : M unit :=
  let id := task_id uploadTask in
  let file := task_file uploadTask in
  let path := task_path uploadTask in
  let bucket := task_bucket uploadTask in
  let retries := retries uploadTask in
  let* exists_ := fileExists path in
  if exists_ then
    uploadQueue.removeFromQueue id ;;;
    enqueueSnackbar ("File " +:+ quoted (file_name file) +:+
                     " already exists. Removed from queue.") info
  else
    try_catch
      (let* _ := uploadFile file path bucket in
       uploadQueue.removeFromQueue id ;;;
       enqueueSnackbar ("Successfully uploaded " +:+
                        quoted (file_name file) +:+ ".") success)
      (λ _,
         if decide (retries < 3) then
           uploadQueue.updateQueueItem
             {| task_id := task_id uploadTask;
                task_file := task_file uploadTask;
                task_path := task_path uploadTask;
                task_bucket := task_bucket uploadTask;
                retries := retries + 1;
                status := status uploadTask;
                progress := progress uploadTask |} ;;;
           enqueueSnackbar ("Retrying upload for " +:+
                            quoted (file_name file) +:+ ". Attempt " +:+
                            pretty (retries + 1)) warning
         else
           enqueueSnackbar ("Max retries exceeded for " +:+
                            quoted (file_name file) +:+
                            ". Upload failed.") error_ ;;;
           uploadQueue.removeFromQueue id).

Definition processUploadQueue : M unit :=
  if negb isOnline then ret tt
  else
    let* queuedUploads := uploadQueue.getAllQueuedUploads in
    for_each processUploadTask queuedUploads.

(** [if (onProgress) onProgress({ progress: filesProcessed / totalFiles
    * 100, ... })] *)
Definition report (onProgress : bool) (filesProcessed totalFiles : nat) :
    M unit :=
  if onProgress then emit (EvProgress filesProcessed totalFiles)
  else ret tt.

Definition queueUpload (file : File) (path bucket : string) : M unit :=
  let* id := next_uuid E in
  uploadQueue.addToQueue
    {| task_id := id; task_file := file; task_path := path;
       task_bucket := bucket; retries := 0; status := queued;
       progress := 0 |}.

(** The [try]/[catch] of [uploadFiles] around the immediate upload: on
    failure the file is queued. *)
Definition uploadOrQueue (file : File) (path bucket : string)
    (onProgress : bool) (totalFiles filesProcessed : nat) : M nat :=
  try_catch
    (let* _ := uploadFile file path bucket in
     report onProgress (S filesProcessed) totalFiles ;;;
     ret (S filesProcessed))
    (λ _,
       queueUpload file path bucket ;;;
       enqueueSnackbar ("Queued upload for " +:+
                        quoted (file_name file) +:+ ".") warning ;;;
       report onProgress (S filesProcessed) totalFiles ;;;
       ret (S filesProcessed)).

(** One turn of the loop of [uploadFiles]; the result is the new
    [filesProcessed], the file's [path] having been pushed onto
    [paths] on every branch. *)
Definition uploadOne (basePath bucket : string) (onProgress : bool)
    (totalFiles : nat) (file : File) (filesProcessed : nat) : M nat :=
  let path := basePath +:+ "/" +:+ file_name file in
  if isOnline then
    let* exists_ := fileExists path in
    if exists_ then
      enqueueSnackbar ("File " +:+ quoted (file_name file) +:+
                       " already exists. Skipping upload.") info ;;;
      report onProgress (S filesProcessed) totalFiles ;;;
      ret (S filesProcessed)
    else
      uploadOrQueue file path bucket onProgress totalFiles filesProcessed
  else
    queueUpload file path bucket ;;;
    enqueueSnackbar ("Queued upload for " +:+ quoted (file_name file) +:+
                     " (Offline).") info ;;;
    report onProgress (S filesProcessed) totalFiles ;;;
    ret (S filesProcessed).

Fixpoint uploadFiles_loop (basePath bucket : string) (onProgress : bool)
    (totalFiles : nat) (files : list File) (paths : list string)
    (filesProcessed : nat) : M (list string) :=
  match files with
  | [] => ret paths
  | file :: rest =>
      let* filesProcessed' :=
        uploadOne basePath bucket onProgress totalFiles file
                  filesProcessed in
      uploadFiles_loop basePath bucket onProgress totalFiles rest
        (paths ++ [basePath +:+ "/" +:+ file_name file]) filesProcessed'
  end.

Definition uploadFiles (files : list File) (basePath bucket : string)
    (onProgress : bool) : M (list string) :=
  uploadFiles_loop basePath bucket onProgress (length files) files [] 0%nat.

End useStorage.
End useStorage.

(** ** AuthService *)

(** The browser's [localStorage]. *)
Definition LICENSE_KEY_STORAGE_KEY : string := "stored_license_key".

(** [{ data: { user, session }, error }] of
    [supabase.auth.signInWithPassword], or the value the call threw.
    The answer is an argument of [signIn]: the call is not recorded in
    the trace. *)
Inductive SignInResponse :=
| SignInAnswered (user : option RemoteUser) (session : option Session)
    (error : option Err)
| SignInThrown (error : Err).

(** What [signIn] resolves to. *)
Record SignInResult := {
  signed_user : User;
  signed_profile : UserProfile;
  signed_organization : option Organization;
  storedLicenseKey : option string;
}.

Module AuthService.
Section AuthService.
Context (E : Env).

Definition getSession : M (option Session) :=
  try_catch
    (let* answer := call (auth_getSession E) EvAuthGetSession in
     match answer with
     | Thrown error => throw error
     | Answered (Some session) None =>
         IndexedDBStorage.saveSession session ;;;
         ret (Some session)
     | Answered _ _ => IndexedDBStorage.getSession
     end)
    (λ _, IndexedDBStorage.getSession).

(** [x || null] on an optional string. *)
Definition or_null (x : option string) : option string :=
  match x with
  | Some s => if decide (s = EmptyString) then None else Some s
  | None => None
  end.

Definition getCurrentUser : M (option User) :=
  try_catch
    (let* answer := call (auth_getUser E) EvAuthGetUser in
     match answer with
     | Thrown error => throw error
     | Answered (Some user) None =>
         let currentUser :=
           {| user_id := ru_id user;
              user_email := default EmptyString (ru_email user);
              last_sign_in_at := or_null (ru_last_sign_in_at user) |} in
         IndexedDBStorage.saveUser currentUser ;;;
         ret (Some currentUser)
     | Answered _ _ => IndexedDBStorage.getUser
     end)
    (λ _, IndexedDBStorage.getUser).

Definition getUserProfile (userId : string) : M UserProfile :=
  try_catch
    (let* localProfile := IndexedDBStorage.getUserProfile userId in
     match localProfile with
     | Some p => ret p
     | None =>
         let* answer := call (λ h, select_profile E h userId)
                             (EvSelectProfile userId) in
         match answer with
         | Thrown error => throw error
         | Answered _ (Some error) => throw error
         | Answered None None => throw "User profile not found"
         | Answered (Some data) None =>
             IndexedDBStorage.saveUserProfile data ;;;
             ret data
         end
     end)
    (λ error, throw error).

Definition getOrganization (orgId : string) : M Organization :=
  try_catch
    (let* localOrg := IndexedDBStorage.getOrganization orgId in
     match localOrg with
     | Some o => ret o
     | None =>
         let* answer := call (λ h, select_organization E h orgId)
                             (EvSelectOrganization orgId) in
         match answer with
         | Thrown error => throw error
         | Answered _ (Some error) => throw error
         | Answered None None => throw "Organization not found"
         | Answered (Some data) None =>
             IndexedDBStorage.saveOrganization data ;;;
             ret data
         end
     end)
    (λ error, throw error).

(** [new Date(session.expires_at * 1000) > new Date()]: an expiry beyond
    the range of [Date] gives an invalid date, which compares false. *)
Definition still_valid (expires_at now : Z) : Prop :=
  Z.abs (expires_at * 1000) ≤ SyncService.MAX_TIME_VALUE ∧
  now < expires_at * 1000.

Definition getLocalSession : M (option Session) :=
  try_catch
    (let* session := IndexedDBStorage.getSession in
     match session with
     | Some s =>
         match expires_at s with
         | Some expiry =>
             if decide (expiry = 0) then ret None
             else
               let* t := now E in
               if decide (still_valid expiry t) then ret (Some s)
               else IndexedDBStorage.removeSession ;;; ret None
         | None => ret None
         end
     | None => ret None
     end)
    (λ _, ret None).

Definition getLocalUser : M (option User) :=
  try_catch IndexedDBStorage.getUser (λ _, ret None).

(** [signIn(email, password)], given the answer of
    [signInWithPassword] and the content of [localStorage]. *)
Definition signIn (answer : SignInResponse)
    (localStorage : gmap string string) : M SignInResult :=
  try_catch
    (match answer with
     | SignInThrown error => throw error
     | SignInAnswered _ _ (Some error) => throw error
     | SignInAnswered (Some data_user) (Some data_session) None =>
         let user :=
           {| user_id := ru_id data_user;
              user_email := default EmptyString (ru_email data_user);
              last_sign_in_at := or_null (ru_last_sign_in_at data_user) |} in
         IndexedDBStorage.saveSession data_session ;;;
         IndexedDBStorage.saveUser user ;;;
         let* profile := getUserProfile (user_id user) in
         let* organization :=
           match organization_id profile with
           | Some orgId =>
               if decide (orgId = EmptyString) then ret None
               else let* o := getOrganization orgId in ret (Some o)
           | None => ret None
           end in
         IndexedDBStorage.saveUserProfile profile ;;;
         match organization with
         | Some o => IndexedDBStorage.saveOrganization o
         | None => ret tt
         end ;;;
         ret {| signed_user := user; signed_profile := profile;
                signed_organization := organization;
                storedLicenseKey :=
                  localStorage !! LICENSE_KEY_STORAGE_KEY |}
     | SignInAnswered _ _ None =>
         throw "No user or session returned from sign in"
     end)
    (λ error, throw error).

(** [signOut()], given the error of [supabase.auth.signOut], if any, and
    the content of [localStorage]; the result is the new content. *)
Definition signOut (error : option Err)
    (localStorage : gmap string string) : M (gmap string string) :=
  try_catch
    (match error with
     | Some e => throw e
     | None =>
         IndexedDBStorage.clearStore "user_profiles" ;;;
         IndexedDBStorage.clearStore "organizations" ;;;
         IndexedDBStorage.removeSession ;;;
         IndexedDBStorage.removeUser ;;;
         ret (delete LICENSE_KEY_STORAGE_KEY localStorage)
     end)
    (λ e, throw e).

End AuthService.
End AuthService.

(** ** Callers of the operation queue *)

(** A caller of the queue issues [enqueue]s and [remove]s. *)
Inductive QueueCall :=
| CallEnqueue (operation : OperationIntent)
| CallRemove (operationId : string).

Definition run_call (E : Env) (c : QueueCall) : M unit :=
  match c with
  | CallEnqueue operation => OperationQueue.enqueue E operation
  | CallRemove operationId => OperationQueue.remove operationId
  end.

Definition is_enqueue (c : QueueCall) : bool :=
  match c with CallEnqueue _ => true | CallRemove _ => false end.

(** Number of [enqueue]s among the first [i] calls. *)
Definition enqueues_before (calls : list QueueCall) (i : nat) : nat :=
  length (filter (λ c, is_enqueue c = true) (take i calls)).

Definition enqueue_count (calls : list QueueCall) : nat :=
  length (filter (λ x, is_enqueue x = true) calls).

(** The record an [enqueue] builds when [k] enqueues came before it, in a
    run that starts after [u] calls of [uuidv4] and [c] of [Date.now]. *)
Definition queued_operation (E : Env) (u c : nat)
    (operation : OperationIntent) (k : nat) : PendingOperation :=
  {| op_id := uuidv4 E (u + k);
     op_type := intent_type operation;
     op_table := intent_table operation;
     op_data := intent_data operation;
     timestamp := Date_now E (c + k);
     retryCount := 0 |}.

(** The operation the [i]-th call stores, when it is an [enqueue]. *)
Definition stored (E : Env) (u c : nat) (calls : list QueueCall) (i : nat) :
    option PendingOperation :=
  match calls !! i with
  | Some (CallEnqueue operation) =>
      Some (queued_operation E u c operation (enqueues_before calls i))
  | _ => None
  end.

(** [op] was enqueued by some call and not removed by a later one. *)
Definition pending_after (E : Env) (u c : nat) (calls : list QueueCall)
    (op : PendingOperation) : Prop :=
  ∃ i, stored E u c calls i = Some op ∧
       ∀ j, (i < j)%nat → calls !! j ≠ Some (CallRemove (op_id op)).

(** Every record of a keyed store sits under its own id. *)
Definition keyed {A} (key : A → string) (m : gmap string A) : Prop :=
  map_Forall (λ k x, key x = k) m.

(** The world [w] with queue content [m] after [k] more enqueues. *)
Definition queue_world (w : World) (m : gmap string PendingOperation)
    (k : nat) : World :=
  {| store := set_pending_operations (λ _, m) (store w);
     trace := trace w;
     uuid_calls := uuid_calls w + k;
     clock_calls := clock_calls w + k |}.

(** A test environment: ids and times are the call counters, every remote
    call succeeds with nothing to report, [handleError] rethrows. *)
Definition quiet_env : Env :=
  {| uuidv4 := λ n, pretty n;
     Date_now := λ n, 1000 + Z.of_nat n;
     connector := true;
     remote_insert := λ _ _ _, None;
     remote_update := λ _ _ _ _, None;
     remote_delete := λ _ _ _, None;
     remote_select := λ _ _ _ _, inr [];
     storage_upload := λ _ _ path _, UploadData path;
     storage_list := λ _ _ _, ListData [];
     auth_getSession := λ _, Answered None None;
     auth_getUser := λ _, Answered None None;
     select_profile := λ _ _, Answered None None;
     select_organization := λ _ _, Answered None None;
     handleError := rethrow |}.

Definition sample_create : OperationIntent :=
  {| intent_type := create; intent_table := "samples";
     intent_data := {| payload_id := Some "s1";
                       payload_fields := [("name", "core 1")] |} |}.

Definition sample_update : OperationIntent :=
  {| intent_type := update; intent_table := "samples";
     intent_data := {| payload_id := Some "s1";
                       payload_fields := [("name", "core 2")] |} |}.

(** ** Observations on the sync drain *)

(** The answer the remote gives, in history [h], to the call an
    operation is dispatched to. *)
Definition remote_answer (E : Env) (h : list Event) (op : PendingOperation) :
    option Err :=
  match op_type op with
  | create => remote_insert E h (op_table op) (op_data op)
  | update => remote_update E h (op_table op) (op_data op)
                            (payload_id (op_data op))
  | delete_ => remote_delete E h (op_table op) (payload_id (op_data op))
  end.

(** The trace entry of that call when it was answered with [error]. *)
Definition remote_event (op : PendingOperation) (error : option Err) : Event :=
  match op_type op with
  | create => EvInsert (op_table op) (op_data op) error
  | update => EvUpdate (op_table op) (op_data op) (payload_id (op_data op))
                       error
  | delete_ => EvDelete (op_table op) (payload_id (op_data op)) error
  end.

(** The message [handleError] receives from the failed remote call. *)
Definition remote_failure_message (op : PendingOperation) : string :=
  match op_type op with
  | create => "Failed to create remote " +:+ op_table op
  | update => "Failed to update remote " +:+ op_table op
  | delete_ => "Failed to delete remote " +:+ op_table op
  end.

Definition acknowledged (ops : list PendingOperation) : list Event :=
  (λ op, remote_event op None) <$> ops.

Definition delete_all (ops : list PendingOperation)
    (m : gmap string PendingOperation) : gmap string PendingOperation :=
  foldl (λ m op, delete (op_id op) m) m ops.

(** The world after the drain acknowledged [ops] and then recorded the
    trace entries [failure]. *)
Definition drained (w : World) (ops : list PendingOperation)
    (failure : list Event) : World :=
  {| store := set_pending_operations (delete_all ops) (store w);
     trace := trace w ++ acknowledged ops ++ failure;
     uuid_calls := uuid_calls w;
     clock_calls := clock_calls w |}.

(** The queue content as [syncToRemote] reads it. *)
Definition snapshot (w : World) : list PendingOperation :=
  merge_sort earlier (map_to_list (pending_operations (store w))).*2.


(** A world with two pending operations: a create stamped 1000 under id
    [0] and an update stamped 1001 under id [1]. *)
Definition two_pending : World :=
  (for_each (run_call quiet_env)
     [CallEnqueue sample_create; CallEnqueue sample_update]
     initial_world).2.

(** ** Observations on the upload drain *)

Definition add_events (w : World) (evs : list Event) : World :=
  {| store := store w; trace := trace w ++ evs;
     uuid_calls := uuid_calls w; clock_calls := clock_calls w |}.

Definition with_uploads
    (f : gmap string UploadTask → gmap string UploadTask) (w : World) :
    World :=
  {| store := set_pending_uploads f (store w); trace := trace w;
     uuid_calls := uuid_calls w; clock_calls := clock_calls w |}.

(** [data.length > 0] on the answer of the listing, [false] when the
    listing failed. *)
Definition list_exists (a : ListResponse) : bool :=
  match a with
  | ListData data => bool_decide (0 < length data)%nat
  | _ => false
  end.

Definition upload_result (u : UploadResponse) : Result string :=
  match u with
  | UploadData path => Ok path
  | UploadNoData => Throw "Upload failed"
  | UploadError error => Throw error
  end.

(** The task as [updateQueueItem] rewrites it after a failed attempt. *)
Definition retried (t : UploadTask) : UploadTask :=
  {| task_id := task_id t; task_file := task_file t;
     task_path := task_path t; task_bucket := task_bucket t;
     retries := retries t + 1; status := status t;
     progress := progress t |}.

Definition already_exists_notice (t : UploadTask) : Event :=
  EvSnackbar ("File " +:+ quoted (file_name (task_file t)) +:+
              " already exists. Removed from queue.") info.

Definition uploaded_notice (t : UploadTask) : Event :=
  EvSnackbar ("Successfully uploaded " +:+
              quoted (file_name (task_file t)) +:+ ".") success.

Definition retry_notice (t : UploadTask) : Event :=
  EvSnackbar ("Retrying upload for " +:+ quoted (file_name (task_file t)) +:+
              ". Attempt " +:+ pretty (retries t + 1)) warning.

(** The terminal failure notification. *)
Definition max_retries_notice (t : UploadTask) : Event :=
  EvSnackbar ("Max retries exceeded for " +:+
              quoted (file_name (task_file t)) +:+ ". Upload failed.")
             error_.

(** The notifications by which the drain reports the outcome of a task. *)
Definition outcome_notices (t : UploadTask) : list Event :=
  [already_exists_notice t; uploaded_notice t; retry_notice t;
   max_retries_notice t].

(** A storage call made on behalf of task [t]: the existence check lists
    the task's path in the bucket [processed-data], the upload goes to
    the task's own bucket. *)
Definition storage_call_of (t : UploadTask) (e : Event) : Prop :=
  match e with
  | EvList bucket path _ => bucket = "processed-data" ∧ path = task_path t
  | EvUpload bucket path file _ =>
      bucket = task_bucket t ∧ path = task_path t ∧ file = task_file t
  | _ => False
  end.

(** The queue content as [processUploadQueue] reads it. *)
Definition queued_uploads (w : World) : list UploadTask :=
  (map_to_list (pending_uploads (store w))).*2.

(** The user-interface entries of a trace. *)
Definition notices (evs : list Event) : list Event :=
  filter (λ e, is_remote e = false) evs.


(** A test environment whose object storage answers every listing with
    [list_answer] and every upload with [upload_answer]. *)
Definition storage_env (list_answer : ListResponse)
    (upload_answer : UploadResponse) : Env :=
  {| uuidv4 := λ n, pretty n;
     Date_now := λ n, 1000 + Z.of_nat n;
     connector := true;
     remote_insert := λ _ _ _, None;
     remote_update := λ _ _ _ _, None;
     remote_delete := λ _ _ _, None;
     remote_select := λ _ _ _ _, inr [];
     storage_upload := λ _ _ _ _, upload_answer;
     storage_list := λ _ _ _, list_answer;
     auth_getSession := λ _, Answered None None;
     auth_getUser := λ _, Answered None None;
     select_profile := λ _ _, Answered None None;
     select_organization := λ _ _, Answered None None;
     handleError := rethrow |}.

Definition reads_file : File :=
  {| file_name := "reads.fastq"; file_content := "ACGT" |}.



(** ** Observations on [uploadFiles] *)

(** The derived destination path of a file. *)
Definition destination (basePath : string) (file : File) : string :=
  basePath +:+ "/" +:+ file_name file.

(** The task [uploadFiles] queues for a file. *)
Definition fresh_task (id : string) (file : File) (basePath bucket : string) :
    UploadTask :=
  {| task_id := id; task_file := file;
     task_path := destination basePath file; task_bucket := bucket;
     retries := 0; status := queued; progress := 0 |}.

Definition survey_file : File :=
  {| file_name := "survey.csv"; file_content := "depth,temp" |}.

(** The existence check cannot tell whether [path] exists: there is no
    storage client, or the listing answers with an error or without
    data. *)
Definition check_fails (E : Env) (h : list Event) (path : string) : Prop :=
  connector E = false ∨
  ∀ data, storage_list E h "processed-data" path ≠ ListData data.

(** The buckets the storage calls of an upload to [bucket] address. *)
Definition bucket_rule (bucket : string) (e : Event) : Prop :=
  match e with
  | EvList b _ _ => b = "processed-data"
  | EvUpload b _ _ _ => b = bucket
  | _ => True
  end.

(** ** Observations on [syncFromRemote] *)

(** The row stored under primary key [id] in the local mirror of
    [table]. *)
Definition lookup_row (s : Store) (table id : string) : option Row :=
  tables s !! table ≫= λ rows, rows !! id.

(** The result set [syncFromRemote] obtains, if it gets one: none when
    [new Date(since)] is out of range or when the query fails. *)
Definition fetched_rows (E : Env) (h : list Event) (table orgId : string)
    (since : option Z) : option (list Row) :=
  match since with
  | Some t =>
      if decide (t = 0) then
        match remote_select E h table orgId None with
        | inr data => Some data
        | inl _ => None
        end
      else if decide (Z.abs t ≤ SyncService.MAX_TIME_VALUE) then
        match remote_select E h table orgId (Some t) with
        | inr data => Some data
        | inl _ => None
        end
      else None
  | None =>
      match remote_select E h table orgId None with
      | inr data => Some data
      | inl _ => None
      end
  end.

Definition row_a : Row :=
  {| row_id := "a"; row_fields := [("label", "station A")] |}.

Definition row_b : Row :=
  {| row_id := "b"; row_fields := [("label", "station B")] |}.

Definition row_b' : Row :=
  {| row_id := "b"; row_fields := [("label", "station B, moved")] |}.

(** A test environment whose remote table holds only [row_b']. *)
Definition remote_table_env : Env :=
  {| uuidv4 := λ n, pretty n;
     Date_now := λ n, 1000 + Z.of_nat n;
     connector := true;
     remote_insert := λ _ _ _, None;
     remote_update := λ _ _ _ _, None;
     remote_delete := λ _ _ _, None;
     remote_select := λ _ _ _ _, inr [row_b'];
     storage_upload := λ _ _ path _, UploadData path;
     storage_list := λ _ _ _, ListData [];
     auth_getSession := λ _, Answered None None;
     auth_getUser := λ _, Answered None None;
     select_profile := λ _ _, Answered None None;
     select_organization := λ _ _, Answered None None;
     handleError := rethrow |}.

(** A local mirror of [locations] holding [row_a] and [row_b]. *)
Definition mirrored_world : World :=
  {| store := set_tables
       (insert "locations" (<["a" := row_a]> (<["b" := row_b]> ∅)))
       empty_store;
     trace := []; uuid_calls := 0; clock_calls := 0 |}.

(** ** Observations on the auth cache *)

Definition update_store (f : Store → Store) (w : World) : World :=
  {| store := f (store w); trace := trace w;
     uuid_calls := uuid_calls w; clock_calls := clock_calls w |}.

(** The user record [getCurrentUser] builds from the remote one. *)
Definition current_user (user : RemoteUser) : User :=
  {| user_id := ru_id user;
     user_email := default EmptyString (ru_email user);
     last_sign_in_at := AuthService.or_null (ru_last_sign_in_at user) |}.

Definition cached_profile : UserProfile :=
  {| profile_id := "u1"; organization_id := Some "org1";
     profile_fields := [("role", "member")] |}.

Definition remote_profile : UserProfile :=
  {| profile_id := "u1"; organization_id := Some "org1";
     profile_fields := [("role", "admin")] |}.

(** A test environment, online, whose remote holds [remote_profile]. *)
Definition profile_env : Env :=
  {| uuidv4 := λ n, pretty n;
     Date_now := λ n, 1000 + Z.of_nat n;
     connector := true;
     remote_insert := λ _ _ _, None;
     remote_update := λ _ _ _ _, None;
     remote_delete := λ _ _ _, None;
     remote_select := λ _ _ _ _, inr [];
     storage_upload := λ _ _ path _, UploadData path;
     storage_list := λ _ _ _, ListData [];
     auth_getSession := λ _, Answered None None;
     auth_getUser := λ _, Answered None None;
     select_profile := λ _ _, Answered (Some remote_profile) None;
     select_organization := λ _ _, Answered None None;
     handleError := rethrow |}.

(** A world whose local mirror holds the older [cached_profile]. *)
Definition cached_world : World :=
  update_store (set_user_profiles (insert "u1" cached_profile))
               initial_world.

(** ** Further observations on the upload path *)

Definition is_progress (e : Event) : bool :=
  match e with EvProgress _ _ => true | _ => false end.

(** The calls of [onProgress] in a trace. *)
Definition progress_reports (evs : list Event) : list Event :=
  filter (λ e, is_progress e = true) evs.

Definition is_upload (e : Event) : bool :=
  match e with EvUpload _ _ _ _ => true | _ => false end.

(** The notice [uploadFiles] raises for a file it skips. *)
Definition skipped_notice (file : File) : Event :=
  EvSnackbar ("File " +:+ quoted (file_name file) +:+
              " already exists. Skipping upload.") info.

(** What a drain makes of a task whose file is absent and whose upload
    fails: one more retry below the ceiling, removal at the ceiling. *)
Definition after_failed_drain (t : UploadTask) : option UploadTask :=
  if decide (retries t < 3) then Some (retried t) else None.

(** The queue change the drain makes for a task with outcome [o]. *)
Definition write_back (t : UploadTask) (o : option UploadTask)
    (m : gmap string UploadTask) : gmap string UploadTask :=
  match o with
  | Some t' => <[task_id t := t']> m
  | None => delete (task_id t) m
  end.

(** The world after [n] online drains of the upload queue. *)
Fixpoint after_drains (E : Env) (n : nat) (w : World) : World :=
  match n with
  | O => w
  | S n' => after_drains E n' (useStorage.processUploadQueue E true w).2
  end.

(** A queue holding one freshly queued task. *)
Definition fresh_queue : World :=
  with_uploads (insert "0" (fresh_task "0" reads_file "org" "raw-data"))
               initial_world.

(** ** Further observations on the sync path *)

(** The trace entries of one remote call per operation, answered in turn
    with [answers]. *)
Definition answered (ops : list PendingOperation)
    (answers : list (option Err)) : list Event :=
  zip_with remote_event ops answers.

(** A test environment whose database rejects every insert and whose
    [handleError] only logs. *)
Definition logging_env : Env :=
  {| uuidv4 := λ n, pretty n;
     Date_now := λ n, 1000 + Z.of_nat n;
     connector := true;
     remote_insert := λ _ _ _, Some "insert rejected";
     remote_update := λ _ _ _ _, None;
     remote_delete := λ _ _ _, None;
     remote_select := λ _ _ _ _, inr [];
     storage_upload := λ _ _ path _, UploadData path;
     storage_list := λ _ _ _, ListData [];
     auth_getSession := λ _, Answered None None;
     auth_getUser := λ _, Answered None None;
     select_profile := λ _ _, Answered None None;
     select_organization := λ _ _, Answered None None;
     handleError := λ _ _, None |}.

(** ** Further observations on the auth cache *)

(** A sign-in answer that carries a user and a session and no error. *)
Definition accepted (answer : SignInResponse) : Prop :=
  ∃ user session, answer = SignInAnswered (Some user) (Some session) None.

(** A session that expired at second 1, and one that carries no expiry. *)
Definition expired_session : Session :=
  {| access_token := "token-1"; expires_at := Some 1 |}.

Definition undated_session : Session :=
  {| access_token := "token-2"; expires_at := None |}.

Definition remote_user : RemoteUser :=
  {| ru_id := "u1"; ru_email := Some "ada@example.org";
     ru_last_sign_in_at := None |}.

(** A world whose local mirror holds [cached_profile] with its
    organization blanked. *)
Definition orphan_profile : UserProfile :=
  {| profile_id := "u1"; organization_id := Some EmptyString;
     profile_fields := [("role", "member")] |}.

Definition orphan_world : World :=
  update_store (set_user_profiles (insert "u1" orphan_profile))
               initial_world.

(** * Properties *)

(** ** The monad *)

Lemma for_each_app {A} (f : A → M unit) (l1 l2 : list A) (w : World) :
  for_each f (l1 ++ l2) w = (for_each f l1 ;;; for_each f l2) w.
Proof.
  revert w. induction l1 as [|x l1 IH]; intros w; simpl.
  - reflexivity.
  - unfold bind in *. destruct (f x w) as [[[]|e] w1]; [apply IH|done].
Qed.

Lemma world_eta (w : World) :
  {| store := store w; trace := trace w; uuid_calls := uuid_calls w;
     clock_calls := clock_calls w |} = w.
Proof. by destruct w. Qed.

Lemma store_eta (s : Store) :
  {| pending_operations := pending_operations s;
     pending_uploads := pending_uploads s; tables := tables s;
     sessions := sessions s; users := users s;
     user_profiles := user_profiles s;
     organizations := organizations s |} = s.
Proof. by destruct s. Qed.

(** ** Operation queue *)

(** C9.  Removing an id that is not in the queue changes nothing and
    raises no error, and a second [remove(id)] after a first has no
    further effect. *)
Theorem remove_absent_is_noop (operationId : string) (w : World) :
  (pending_operations (store w) !! operationId = None →
   OperationQueue.remove operationId w = (Ok tt, w)) ∧
  (OperationQueue.remove operationId ;;; OperationQueue.remove operationId) w
  = OperationQueue.remove operationId w.
Proof.
  split.
  - intros Habsent.
    unfold OperationQueue.remove, IndexedDBStorage.deletePendingOperation,
      modify_store, set_pending_operations.
    rewrite (delete_id _ _ Habsent), store_eta, world_eta. reflexivity.
  - unfold OperationQueue.remove, IndexedDBStorage.deletePendingOperation,
      modify_store, set_pending_operations, bind; simpl.
    rewrite delete_delete_eq. reflexivity.
Qed.

Section queue_history.
Context (E : Env) (u c : nat).

Lemma stored_Some calls i op :
  stored E u c calls i = Some op →
  (i < length calls)%nat ∧
  ∃ operation, calls !! i = Some (CallEnqueue operation) ∧
               op = queued_operation E u c operation (enqueues_before calls i) ∧
               (enqueues_before calls i < enqueue_count calls)%nat.
Proof.
  unfold stored. destruct (calls !! i) as [[operation|]|] eqn:Hi; [|done..].
  intros [= <-]. split; [by eapply lookup_lt_Some|].
  exists operation. split_and!; [done..|].
  unfold enqueues_before, enqueue_count.
  rewrite <- (take_drop_middle calls i _ Hi) at 2.
  rewrite filter_app, filter_cons_True by done.
  rewrite length_app. simpl. lia.
Qed.

Lemma stored_app_l calls x i :
  (i < length calls)%nat →
  stored E u c (calls ++ [x]) i = stored E u c calls i.
Proof.
  intros Hi. unfold stored, enqueues_before.
  rewrite lookup_app_l by done. rewrite take_app_le by lia. done.
Qed.

Lemma stored_app_last calls x :
  stored E u c (calls ++ [x]) (length calls) =
  match x with
  | CallEnqueue operation =>
      Some (queued_operation E u c operation (enqueue_count calls))
  | CallRemove _ => None
  end.
Proof.
  unfold stored, enqueues_before.
  rewrite lookup_app_r, Nat.sub_diag by lia. simpl.
  rewrite take_app_length. by destruct x.
Qed.

Lemma pending_after_nil op : ¬ pending_after E u c [] op.
Proof.
  intros (i & Hi & _). apply stored_Some in Hi as [Hlt _].
  simpl in Hlt. lia.
Qed.

Lemma pending_after_remove calls operationId op :
  pending_after E u c (calls ++ [CallRemove operationId]) op ↔
  pending_after E u c calls op ∧ op_id op ≠ operationId.
Proof.
  split.
  - intros (i & Hi & Hlater).
    destruct (decide (i < length calls)%nat) as [Hlt|Hge].
    + rewrite stored_app_l in Hi by done. split.
      * exists i. split; [done|]. intros j Hj Hrm.
        apply (Hlater j Hj). rewrite lookup_app_l; [done|].
        by eapply lookup_lt_Some.
      * intros <-. apply (Hlater (length calls) Hlt).
        rewrite lookup_app_r, Nat.sub_diag by lia. done.
    + pose proof (stored_Some _ _ _ Hi) as [Hlen _].
      rewrite length_app in Hlen. simpl in Hlen.
      assert (i = length calls) as -> by lia.
      by rewrite stored_app_last in Hi.
  - intros [(i & Hi & Hlater) Hne].
    pose proof (stored_Some _ _ _ Hi) as [Hlt _].
    exists i. rewrite stored_app_l by done. split; [done|].
    intros j Hj.
    destruct (decide (j < length calls)%nat).
    + rewrite lookup_app_l by done. by apply Hlater.
    + destruct (decide (j = length calls)) as [->|].
      * rewrite lookup_app_r, Nat.sub_diag by lia. simpl. congruence.
      * rewrite lookup_ge_None_2; [done|].
        rewrite length_app. simpl. lia.
Qed.

Lemma pending_after_enqueue calls operation op :
  pending_after E u c (calls ++ [CallEnqueue operation]) op ↔
  pending_after E u c calls op ∨
  op = queued_operation E u c operation (enqueue_count calls).
Proof.
  split.
  - intros (i & Hi & Hlater).
    destruct (decide (i < length calls)%nat) as [Hlt|Hge].
    + rewrite stored_app_l in Hi by done. left.
      exists i. split; [done|]. intros j Hj Hrm.
      apply (Hlater j Hj). rewrite lookup_app_l; [done|].
      by eapply lookup_lt_Some.
    + pose proof (stored_Some _ _ _ Hi) as [Hlen _].
      rewrite length_app in Hlen. simpl in Hlen.
      assert (i = length calls) as -> by lia.
      rewrite stored_app_last in Hi. right. congruence.
  - intros [(i & Hi & Hlater)| ->].
    + pose proof (stored_Some _ _ _ Hi) as [Hlt _].
      exists i. rewrite stored_app_l by done. split; [done|].
      intros j Hj.
      destruct (decide (j < length calls)%nat).
      * rewrite lookup_app_l by done. by apply Hlater.
      * destruct (decide (j = length calls)) as [->|].
        -- rewrite lookup_app_r, Nat.sub_diag by lia. done.
        -- rewrite lookup_ge_None_2; [done|].
           rewrite length_app. simpl. lia.
    + exists (length calls). rewrite stored_app_last. split; [done|].
      intros j Hj. rewrite lookup_ge_None_2; [done|].
      rewrite length_app. simpl. lia.
Qed.

(** An operation still pending carries an id issued before the ones yet
    to come. *)
Lemma pending_after_id calls op :
  pending_after E u c calls op →
  ∃ k, (k < enqueue_count calls)%nat ∧ op_id op = uuidv4 E (u + k).
Proof.
  intros (i & Hi & _).
  apply stored_Some in Hi as (_ & operation & _ & -> & Hk). eauto.
Qed.

End queue_history.

#[local] Instance earlier_trans : Transitive earlier.
Proof. unfold earlier. intros x y z. lia. Qed.

#[local] Instance earlier_total : Total earlier.
Proof. unfold earlier. intros x y. lia. Qed.

(** The queue after a run of calls holds exactly the operations enqueued
    and not removed since. *)
Lemma run_calls_spec (E : Env) (calls : list QueueCall) (w : World) :
  (∀ i j, uuidv4 E i = uuidv4 E j → i = j) →
  pending_operations (store w) = ∅ →
  ∃ m, for_each (run_call E) calls w
       = (Ok tt, queue_world w m (enqueue_count calls)) ∧
       ∀ id op, m !! id = Some op ↔
                op_id op = id ∧
                pending_after E (uuid_calls w) (clock_calls w) calls op.
Proof.
  intros Hinj Hempty. induction calls as [|x calls IH] using rev_ind.
  - exists ∅. split.
    + simpl. unfold ret, queue_world. simpl.
      destruct w as [[] ? ? ?]; simpl in *; subst.
      unfold set_pending_operations; simpl. by rewrite !Nat.add_0_r.
    + intros id op. rewrite lookup_empty. split; [done|].
      intros [_ H]. by apply pending_after_nil in H.
  - destruct IH as (m & Hrun & Hm).
    rewrite for_each_app. unfold bind at 1. rewrite Hrun. simpl.
    destruct x as [operation|operationId].
    + exists (<[uuidv4 E (uuid_calls w + enqueue_count calls) :=
                queued_operation E (uuid_calls w) (clock_calls w) operation
                  (enqueue_count calls)]> m).
      split.
      * unfold bind, ret, queue_world, enqueue_count; simpl.
        rewrite filter_app, length_app, filter_cons_True by done. simpl.
        by rewrite !Nat.add_succ_r, !Nat.add_0_r.
      * intros id op. rewrite pending_after_enqueue, lookup_insert_Some, Hm.
        split.
        -- intros [[<- <-]|(Hne & <- & Hp)]; [by auto|by auto].
        -- intros [<- [Hp| ->]].
           ++ right. split_and!; [|done..].
              intros Heq. apply pending_after_id in Hp as (k & Hk & Hid).
              rewrite Hid in Heq. apply Hinj in Heq. lia.
           ++ by left.
    + exists (delete operationId m). split.
      * unfold bind, ret, queue_world, enqueue_count; simpl.
        rewrite filter_app, length_app, filter_cons_False by done. simpl.
        by rewrite !Nat.add_0_r.
      * intros id op. rewrite pending_after_remove, lookup_delete_Some, Hm.
        split.
        -- intros (Hne & <- & Hp). split_and!; [done..|congruence].
        -- intros (<- & Hp & Hne). split_and!; [congruence|done..].
Qed.

Lemma dequeue_queue_world (w : World) (m : gmap string PendingOperation)
    (k : nat) :
  OperationQueue.dequeue (queue_world w m k)
  = (Ok (head (merge_sort earlier (map_to_list m).*2)), queue_world w m k).
Proof.
  unfold OperationQueue.dequeue,
    IndexedDBStorage.getPendingOperationsOrderedByTimestamp,
    bind, get_store, ret; simpl.
  destruct (merge_sort earlier _) as [|op l]; [done|].
  case_decide as Hlen; [done|]. simpl in Hlen. lia.
Qed.

(** C2.  After any run of [enqueue] and [remove] calls on an empty queue,
    [dequeue] returns an operation enqueued and not yet removed whose
    timestamp is smallest among those, and [null] when there is none; an
    [enqueue] stores the operation under the id [uuidv4] returns, with
    the timestamp [Date.now] returns and [retryCount] 0, and the ids of
    the pending operations are pairwise distinct. *)
Theorem dequeue_returns_earliest_pending (E : Env)
    (calls : list QueueCall) (w : World) :
  (∀ i j, uuidv4 E i = uuidv4 E j → i = j) →
  pending_operations (store w) = ∅ →
  let pending := pending_after E (uuid_calls w) (clock_calls w) calls in
  match for_each (run_call E) calls w with
  | (Ok _, w') =>
      match OperationQueue.dequeue w' with
      | (Ok (Some op), w'') =>
          w'' = w' ∧ pending op ∧
          ∀ op', pending op' → timestamp op ≤ timestamp op'
      | (Ok None, w'') => w'' = w' ∧ ∀ op, ¬ pending op
      | (Throw _, _) => False
      end
  | (Throw _, _) => False
  end ∧
  (∀ op op', pending op → pending op' → op_id op = op_id op' → op = op') ∧
  ∀ operation w0,
    OperationQueue.enqueue E operation w0
    = (Ok tt,
       {| store := set_pending_operations
            (insert (uuidv4 E (uuid_calls w0))
               {| op_id := uuidv4 E (uuid_calls w0);
                  op_type := intent_type operation;
                  op_table := intent_table operation;
                  op_data := intent_data operation;
                  timestamp := Date_now E (clock_calls w0);
                  retryCount := 0 |}) (store w0);
          trace := trace w0;
          uuid_calls := S (uuid_calls w0);
          clock_calls := S (clock_calls w0) |}).
Proof.
  intros Hinj Hempty pending.
  destruct (run_calls_spec E calls w Hinj Hempty) as (m & -> & Hm).
  rewrite dequeue_queue_world. split_and!.
  - pose proof (merge_sort_Permutation earlier (map_to_list m).*2) as Hperm.
    pose proof (StronglySorted_merge_sort earlier (map_to_list m).*2)
      as Hsorted.
    assert (∀ op, op ∈ merge_sort earlier (map_to_list m).*2 ↔ pending op)
      as Hin.
    { intros op. rewrite Hperm, list_elem_of_fmap. split.
      - intros ([id op'] & -> & Hel). apply elem_of_map_to_list in Hel.
        by apply Hm in Hel as [_ ?].
      - intros Hp. exists (op_id op, op). split; [done|].
        apply elem_of_map_to_list, Hm. done. }
    destruct (merge_sort earlier _) as [|op l]; simpl.
    + split; [done|]. intros op Hp. apply Hin in Hp. by apply elem_of_nil in Hp.
    + split_and!; [done| |].
      * apply Hin. left.
      * intros op' Hp. apply Hin in Hp.
        apply StronglySorted_cons in Hsorted as [Hle _].
        apply elem_of_cons in Hp as [->|Hp]; [unfold earlier; lia|].
        by apply (proj1 (Forall_forall _ _) Hle).
  - intros op op' Hp Hp' Hid.
    pose proof (proj2 (Hm (op_id op) op) (conj eq_refl Hp)) as H1.
    pose proof (proj2 (Hm (op_id op) op') (conj (eq_sym Hid) Hp')) as H2.
    congruence.
  - done.
Qed.

(** C2 on a run of two enqueues after which the first operation is
    removed again. *)
Lemma dequeue_returns_earliest_pending_witness :
  let calls := [CallEnqueue sample_create; CallEnqueue sample_update;
                CallRemove "0"] in
  let pending := pending_after quiet_env 0 0 calls in
  match for_each (run_call quiet_env) calls initial_world with
  | (Ok _, w') =>
      match OperationQueue.dequeue w' with
      | (Ok (Some op), w'') =>
          w'' = w' ∧ pending op ∧
          ∀ op', pending op' → timestamp op ≤ timestamp op'
      | (Ok None, w'') => w'' = w' ∧ ∀ op, ¬ pending op
      | (Throw _, _) => False
      end
  | (Throw _, _) => False
  end.
Proof.
  refine (proj1 (dequeue_returns_earliest_pending quiet_env
    [CallEnqueue sample_create; CallEnqueue sample_update; CallRemove "0"]
    initial_world _ _)).
  - intros i j. apply pretty_nat_inj.
  - reflexivity.
Defined.

(** C9, on a queue holding one operation: removing another id. *)
Lemma remove_absent_is_noop_witness :
  let w := (OperationQueue.enqueue quiet_env sample_create initial_world).2 in
  pending_operations (store w) !! "missing" = None ∧
  OperationQueue.remove "missing" w = (Ok tt, w).
Proof.
  split; [reflexivity|].
  apply (proj1 (remove_absent_is_noop "missing"
    (OperationQueue.enqueue quiet_env sample_create initial_world).2)).
  reflexivity.
Defined.

(** ** Keyed stores *)

Lemma keyed_snapshot_keys {A} (key : A → string) (m : gmap string A) :
  keyed key m → key <$> (map_to_list m).*2 = (map_to_list m).*1.
Proof.
  intros Hkeyed. rewrite <- list_fmap_compose. apply list_fmap_ext.
  intros i [k x] Hi. simpl. apply Hkeyed, elem_of_map_to_list.
  apply list_elem_of_lookup. eauto.
Qed.


Lemma lookup_delete_all ops (m : gmap string PendingOperation) k :
  delete_all ops m !! k
  = if decide (k ∈ op_id <$> ops) then None else m !! k.
Proof.
  revert m. induction ops as [|op ops IH]; intros m.
  - case_decide as Hin; [|done]. by apply elem_of_nil in Hin.
  - change (delete_all (op :: ops) m)
      with (delete_all ops (delete (op_id op) m)).
    rewrite IH, fmap_cons.
    destruct (decide (k ∈ op_id <$> ops)) as [Hin|Hnin].
    + rewrite decide_True; [done|]. by right.
    + destruct (decide (k = op_id op)) as [->|Hne].
      * rewrite decide_True by left. apply lookup_delete_eq.
      * rewrite decide_False.
        -- by apply lookup_delete_ne.
        -- intros Hel. apply elem_of_cons in Hel as [?|?]; done.
Qed.

(** ** Sync drain *)

Section sync_drain.
Context (E : Env).

Lemma syncOperation_run (op : PendingOperation) (w : World) :
SyncService.syncOperation E op w =
match remote_answer E (trace w) op with
| None =>
    (Ok tt,
     {| store := set_pending_operations (delete (op_id op)) (store w);
        trace := trace w ++ [remote_event op None];
        uuid_calls := uuid_calls w; clock_calls := clock_calls w |})
| Some e =>
    match handleError E e (remote_failure_message op) with
    | Some e' =>
        (Throw e',
         {| store := store w;
            trace := trace w ++ [remote_event op (Some e)];
            uuid_calls := uuid_calls w; clock_calls := clock_calls w |})
    | None =>
        (Ok tt,
         {| store := set_pending_operations (delete (op_id op)) (store w);
            trace := trace w ++ [remote_event op (Some e)];
            uuid_calls := uuid_calls w; clock_calls := clock_calls w |})
    end
end.
Proof.
unfold SyncService.syncOperation, SyncService.dispatch, remote_answer,
  remote_event, remote_failure_message.
destruct (op_type op);
  unfold SyncService.createRemote, SyncService.updateRemote,
    SyncService.deleteRemote, SyncService.handle, bind, try_catch, call,
    IndexedDBStorage.deletePendingOperation, modify_store, ret, throw;
  simpl;
  (destruct (_ E (trace w) _ _) as [e|] || destruct (_ E (trace w) _ _ _) as [e|]);
  simpl; try done; by destruct (handleError E e _).
Qed.

Context (Hthrows : ∀ e message, handleError E e message ≠ None).




End sync_drain.



(** ** Storage calls of the hook *)

Section storage_calls.
Context (E : Env).

Lemma fileExists_run (path : string) (w : World) :
useStorage.fileExists E path w =
if connector E then
  let a := storage_list E (trace w) "processed-data" path in
  (Ok (list_exists a), add_events w [EvList "processed-data" path a])
else (Ok false, w).
Proof.
unfold useStorage.fileExists, useStorage.getStorageClient, try_catch,
  bind, call, ret, throw, add_events.
destruct (connector E); simpl; [|done].
by destruct (storage_list E (trace w) "processed-data" path).
Qed.

Lemma uploadFile_run (file : File) (path bucket : string) (w : World) :
useStorage.uploadFile E file path bucket w =
if connector E then
  let u := storage_upload E (trace w) bucket path file in
  (upload_result u, add_events w [EvUpload bucket path file u])
else (Throw "No auth connector available", w).
Proof.
unfold useStorage.uploadFile, useStorage.getStorageClient, try_catch,
  bind, call, ret, throw, add_events.
destruct (connector E); simpl; [|done].
by destruct (storage_upload E (trace w) bucket path file).
Qed.

Lemma processUploadTask_run (t : UploadTask) (w : World) :
useStorage.processUploadTask E t w =
match useStorage.fileExists E (task_path t) w with
| (Ok true, w1) =>
    (Ok tt, add_events (with_uploads (delete (task_id t)) w1)
                       [already_exists_notice t])
| (Ok false, w1) =>
    match useStorage.uploadFile E (task_file t) (task_path t)
                                (task_bucket t) w1 with
    | (Ok _, w2) =>
        (Ok tt, add_events (with_uploads (delete (task_id t)) w2)
                           [uploaded_notice t])
    | (Throw _, w2) =>
        if decide (retries t < 3) then
          (Ok tt, add_events (with_uploads (insert (task_id t) (retried t))
                                           w2) [retry_notice t])
        else
          (Ok tt, with_uploads (delete (task_id t))
                               (add_events w2 [max_retries_notice t]))
    end
| (Throw e, w1) => (Throw e, w1)
end.
Proof.
unfold useStorage.processUploadTask, bind at 1.
destruct (useStorage.fileExists E (task_path t) w) as [[[]|e] w1];
  [done| |done].
unfold try_catch, bind at 1.
destruct (useStorage.uploadFile E _ _ _ w1) as [[p|e] w2]; [done|].
by case_decide.
Qed.

End storage_calls.

(** ** Upload drain *)

Section upload_drain.
Context (E : Env).

Lemma storage_call_is_remote (t : UploadTask) (e : Event) :
storage_call_of t e → is_remote e = true.
Proof. by destruct e. Qed.

Lemma notice_is_local (t : UploadTask) (e : Event) :
e ∈ outcome_notices t → is_remote e = false.
Proof.
unfold outcome_notices. rewrite !elem_of_cons, elem_of_nil.
by intros [->|[->|[->|[->|[]]]]].
Qed.

Lemma with_uploads_add_events f (w : World) (evs : list Event) :
with_uploads f (add_events w evs) = add_events (with_uploads f w) evs.
Proof. reflexivity. Qed.

Lemma add_events_add_events (w : World) (evs1 evs2 : list Event) :
add_events (add_events w evs1) evs2 = add_events w (evs1 ++ evs2).
Proof. unfold add_events. simpl. by rewrite app_assoc. Qed.

Lemma notices_remote (evs : list Event) :
Forall (λ e, is_remote e = true) evs → notices evs = [].
Proof.
unfold notices. induction 1 as [|e evs He _ IH]; [done|].
rewrite filter_cons_False; [done|]. by rewrite He.
Qed.

(** Processing one queued task never throws: it makes at most an
  existence check and an upload, reports one outcome, and either
  removes the task or writes it back with one more retry. *)
Lemma processUploadTask_outcome (t : UploadTask) (w : World) :
∃ f evs notice,
  useStorage.processUploadTask E t w
  = (Ok tt, add_events (with_uploads f w) (evs ++ [notice])) ∧
  Forall (storage_call_of t) evs ∧
  notice ∈ outcome_notices t ∧
  (f = delete (task_id t) ∨
   (retries t < 3 ∧ f = insert (task_id t) (retried t))).
Proof.
rewrite processUploadTask_run, fileExists_run.
destruct (connector E) eqn:Hconn; simpl.
- destruct (list_exists _) eqn:Hexists.
  + eexists (delete (task_id t)), [_], _.
    rewrite with_uploads_add_events, add_events_add_events.
    split_and!; [done| |set_solver|by left]. by repeat constructor.
  + rewrite uploadFile_run, Hconn. simpl.
    destruct (upload_result _) as [p|e].
    * eexists (delete (task_id t)), [_; _], _.
      rewrite !with_uploads_add_events, !add_events_add_events.
      split_and!; [done| |set_solver|by left]. by repeat constructor.
    * case_decide.
      -- eexists (insert (task_id t) (retried t)), [_; _], _.
         rewrite !with_uploads_add_events, !add_events_add_events.
         split_and!; [done| |set_solver|by right]. by repeat constructor.
      -- eexists (delete (task_id t)), [_; _], _.
         rewrite !with_uploads_add_events, !add_events_add_events.
         split_and!; [done| |set_solver|by left]. by repeat constructor.
- rewrite uploadFile_run, Hconn. case_decide.
  + eexists (insert (task_id t) (retried t)), [], _.
    split_and!; [done|done|set_solver|by right].
  + eexists (delete (task_id t)), [], _.
    split_and!; [done|done|set_solver|by left].
Qed.

(** The drain processes every queued task, whatever the remote answers:
  the notices it raises are, in order, one outcome per task. *)
Lemma upload_drain_events (ts : list UploadTask) (w : World) :
∃ w' evs,
  for_each (useStorage.processUploadTask E) ts w = (Ok tt, w') ∧
  trace w' = trace w ++ evs ∧
  Forall2 (λ t e, e ∈ outcome_notices t) ts (notices evs) ∧
  Forall (λ e, is_remote e = true → ∃ t, t ∈ ts ∧ storage_call_of t e)
         evs.
Proof.
revert w. induction ts as [|t ts IH]; intros w.
- exists w, []. split_and!; [done|by rewrite app_nil_r|constructor..].
- destruct (processUploadTask_outcome t w)
    as (f & evs & notice & Hrun & Hevs & Hnotice & _).
  simpl. unfold bind. rewrite Hrun.
  destruct (IH (add_events (with_uploads f w) (evs ++ [notice])))
    as (w' & evs' & -> & Htrace & Hnotices & Hcalls).
  exists w', ((evs ++ [notice]) ++ evs'). split_and!.
  + done.
  + rewrite Htrace. simpl. by rewrite <- !app_assoc.
  + assert (notices evs = []) as Hnone.
    { apply notices_remote. eapply Forall_impl; [exact Hevs|].
      intros e He. by eapply storage_call_is_remote. }
    unfold notices in *. rewrite !filter_app, Hnone.
    rewrite filter_cons_True by by eapply notice_is_local.
    simpl. by constructor.
  + rewrite !Forall_app. split_and!.
    * eapply Forall_impl; [exact Hevs|]. intros e He _.
      exists t. split; [left|done].
    * constructor; [|constructor]. intros Hrem.
      by rewrite (notice_is_local _ _ Hnotice) in Hrem.
    * eapply Forall_impl; [exact Hcalls|]. intros e He Hrem.
      destruct (He Hrem) as (t' & Ht' & Hcall). exists t'.
      split; [by right|done].
Qed.

(** Tasks other than the ones processed are left as they were. *)
Lemma upload_drain_frame (ts : list UploadTask) (w : World) (k : string) :
k ∉ task_id <$> ts →
pending_uploads
  (store (for_each (useStorage.processUploadTask E) ts w).2) !! k
= pending_uploads (store w) !! k.
Proof.
revert w. induction ts as [|t ts IH]; intros w Hk; [done|].
rewrite fmap_cons, not_elem_of_cons in Hk. destruct Hk as [Hne Hk].
destruct (processUploadTask_outcome t w)
  as (f & evs & notice & Hrun & _ & _ & Hf).
simpl. unfold bind. rewrite Hrun, IH by done. simpl.
destruct Hf as [->|[_ ->]].
- by apply lookup_delete_ne.
- by apply lookup_insert_ne.
Qed.


End upload_drain.

Lemma processUploadQueue_online (E : Env) (w : World) :
  useStorage.processUploadQueue E true w
  = for_each (useStorage.processUploadTask E) (queued_uploads w) w.
Proof. reflexivity. Qed.







(** ** Offline submission *)

Section offline_submission.
Context (E : Env) (basePath bucket : string) (onProgress : bool)
(totalFiles : nat).

Lemma uploadOne_offline (file : File) (filesProcessed : nat) (w : World) :
∃ evs,
  useStorage.uploadOne E false basePath bucket onProgress totalFiles file
                       filesProcessed w
  = (Ok (S filesProcessed),
     {| store := set_pending_uploads
          (insert (uuidv4 E (uuid_calls w))
             (fresh_task (uuidv4 E (uuid_calls w)) file basePath bucket))
          (store w);
        trace := trace w ++ evs;
        uuid_calls := S (uuid_calls w);
        clock_calls := clock_calls w |}) ∧
  Forall (λ e, is_remote e = false) evs.
Proof.
destruct onProgress eqn:Hprogress.
- eexists [_; _]. split.
  + unfold useStorage.uploadOne, useStorage.report. rewrite Hprogress.
    unfold bind, ret, emit, useStorage.enqueueSnackbar,
      useStorage.queueUpload, uploadQueue.addToQueue, modify_store,
      next_uuid, emit, bind; simpl.
    by rewrite <- app_assoc.
  + by repeat constructor.
- eexists [_]. split.
  + unfold useStorage.uploadOne, useStorage.report. rewrite Hprogress.
    reflexivity.
  + by repeat constructor.
Qed.

Lemma uploadFiles_loop_cons (isOnline : bool) (file : File)
  (files : list File) (paths : list string) (filesProcessed : nat)
  (w : World) :
useStorage.uploadFiles_loop E isOnline basePath bucket onProgress
  totalFiles (file :: files) paths filesProcessed w
= match useStorage.uploadOne E isOnline basePath bucket onProgress
          totalFiles file filesProcessed w with
  | (Ok filesProcessed', w1) =>
      useStorage.uploadFiles_loop E isOnline basePath bucket onProgress
        totalFiles files (paths ++ [destination basePath file])
        filesProcessed' w1
  | (Throw e, w1) => (Throw e, w1)
  end.
Proof. reflexivity. Qed.

Lemma uploadFiles_loop_offline (files : list File) (paths : list string)
  (filesProcessed : nat) (w : World) :
∃ w' evs,
  useStorage.uploadFiles_loop E false basePath bucket onProgress
                              totalFiles files paths filesProcessed w
  = (Ok (paths ++ (destination basePath <$> files)), w') ∧
  trace w' = trace w ++ evs ∧
  Forall (λ e, is_remote e = false) evs ∧
  (∀ k, (∀ i, (i < length files)%nat → k ≠ uuidv4 E (uuid_calls w + i)) →
        pending_uploads (store w') !! k = pending_uploads (store w) !! k) ∧
  ((∀ i j, (i < j < length files)%nat →
           uuidv4 E (uuid_calls w + i) ≠ uuidv4 E (uuid_calls w + j)) →
   (∀ i file, files !! i = Some file →
      pending_uploads (store w') !! uuidv4 E (uuid_calls w + i)
      = Some (fresh_task (uuidv4 E (uuid_calls w + i)) file basePath
                         bucket)) ∧
   ((∀ i, (i < length files)%nat →
          pending_uploads (store w) !! uuidv4 E (uuid_calls w + i) = None) →
    size (pending_uploads (store w'))
    = (size (pending_uploads (store w)) + length files)%nat)).
Proof.
revert paths filesProcessed w.
induction files as [|file files IH]; intros paths filesProcessed w.
- exists w, []. simpl. rewrite !app_nil_r.
  split_and!; [done..| |]; [done|]. intros _. split; [done|].
  intros _. lia.
- destruct (uploadOne_offline file filesProcessed w)
    as (evs1 & Hone & Hlocal1).
  rewrite uploadFiles_loop_cons, Hone.
  match goal with |- context [useStorage.uploadFiles_loop _ _ _ _ _ _ _
                                ?ps ?fp ?w1] =>
    destruct (IH ps fp w1)
      as (w' & evs & -> & Htrace & Hlocal & Hframe & Hfresh) end.
  simpl in Htrace, Hframe, Hfresh.
  exists w', (evs1 ++ evs). split_and!.
  + by rewrite <- app_assoc.
  + by rewrite Htrace, <- app_assoc.
  + by apply Forall_app.
  + intros k Hk. rewrite Hframe.
    * apply lookup_insert_ne. specialize (Hk 0%nat).
      rewrite Nat.add_0_r in Hk. intros Heq. apply Hk; [simpl; lia|done].
    * intros i Hi. rewrite <- Nat.add_succ_r. apply Hk. simpl. lia.
  + intros Hdistinct.
    assert (∀ i j, (i < j < length files)%nat →
              uuidv4 E (S (uuid_calls w + i))
              ≠ uuidv4 E (S (uuid_calls w + j))) as Hdistinct'.
    { intros i j Hij. rewrite <- !Nat.add_succ_r. apply Hdistinct. simpl in *. lia. }
    destruct (Hfresh Hdistinct') as [Hlookup Hsize]. split.
    * intros [|i] f Hf; simpl in Hf.
      -- injection Hf as ->. rewrite Nat.add_0_r, Hframe.
         ++ apply lookup_insert_eq.
         ++ intros i Hi. rewrite <- Nat.add_succ_r.
            rewrite <- (Nat.add_0_r (uuid_calls w)) at 1.
            apply Hdistinct. simpl in *. lia.
      -- rewrite Nat.add_succ_r. by apply Hlookup.
    * intros Habsent. rewrite Hsize.
      -- rewrite map_size_insert_None; [simpl; lia|].
         rewrite <- (Nat.add_0_r (uuid_calls w)). apply Habsent. simpl. lia.
      -- intros i Hi. rewrite lookup_insert_ne.
         ++ rewrite <- Nat.add_succ_r. apply Habsent. simpl. lia.
         ++ rewrite <- Nat.add_succ_r.
            rewrite <- (Nat.add_0_r (uuid_calls w)) at 1.
            apply Hdistinct. simpl in *. lia.
Qed.

End offline_submission.

(** C5.  Offline, [uploadFiles] returns the derived path of every file in
    input order and makes no remote call; when the ids [uuidv4] returns
    are new, it adds exactly one task per file to the queue, each with
    [retries] 0 and status [queued], and leaves the other tasks alone. *)
Theorem offline_upload_only_enqueues (E : Env) (files : list File)
    (basePath bucket : string) (onProgress : bool) (w : World) :
  (∀ i j, (i < j < length files)%nat →
          uuidv4 E (uuid_calls w + i) ≠ uuidv4 E (uuid_calls w + j)) →
  (∀ i, (i < length files)%nat →
        pending_uploads (store w) !! uuidv4 E (uuid_calls w + i) = None) →
  ∃ w' evs,
    useStorage.uploadFiles E false files basePath bucket onProgress w
    = (Ok (destination basePath <$> files), w') ∧
    trace w' = trace w ++ evs ∧
    Forall (λ e, is_remote e = false) evs ∧
    size (pending_uploads (store w'))
    = (size (pending_uploads (store w)) + length files)%nat ∧
    (∀ i file, files !! i = Some file →
       pending_uploads (store w') !! uuidv4 E (uuid_calls w + i)
       = Some (fresh_task (uuidv4 E (uuid_calls w + i)) file basePath
                          bucket)) ∧
    (∀ k, (∀ i, (i < length files)%nat → k ≠ uuidv4 E (uuid_calls w + i)) →
          pending_uploads (store w') !! k = pending_uploads (store w) !! k).
Proof.
  intros Hdistinct Habsent.
  destruct (uploadFiles_loop_offline E basePath bucket onProgress
              (length files) files [] 0%nat w)
    as (w' & evs & Hrun & Htrace & Hlocal & Hframe & Hfresh).
  destruct (Hfresh Hdistinct) as [Hlookup Hsize].
  exists w', evs. split_and!; [exact Hrun|done..|by apply Hsize|done|done].
Qed.

(** C5 on two files submitted offline to an empty queue. *)
Lemma offline_upload_only_enqueues_witness :
  ∃ w' evs,
    useStorage.uploadFiles quiet_env false [reads_file; survey_file]
                           "org" "raw-data" true initial_world
    = (Ok ["org/reads.fastq"; "org/survey.csv"], w') ∧
    trace w' = [] ++ evs ∧
    Forall (λ e, is_remote e = false) evs ∧
    size (pending_uploads (store w')) = 2%nat ∧
    (∀ i file, [reads_file; survey_file] !! i = Some file →
       pending_uploads (store w') !! pretty i
       = Some (fresh_task (pretty i) file "org" "raw-data")) ∧
    (∀ k, (∀ i, (i < 2)%nat → k ≠ pretty i) →
          pending_uploads (store w') !! k = None).
Proof.
  apply (offline_upload_only_enqueues quiet_env [reads_file; survey_file]
           "org" "raw-data" true initial_world).
  - intros i j Hij Heq. apply pretty_nat_inj in Heq. simpl in *. lia.
  - intros i _. reflexivity.
Defined.

(** ** Existence check *)

(** C7.  When the existence check fails, [fileExists] answers [false]
    without throwing and without touching the store, and [uploadFiles]
    goes on to upload the file (queueing it if that fails) instead of
    skipping it. *)
Theorem failed_existence_check_means_absent (E : Env) (path : string)
    (w : World) :
  check_fails E (trace w) path →
  ∃ w1,
    useStorage.fileExists E path w = (Ok false, w1) ∧
    store w1 = store w ∧
    ∀ basePath bucket onProgress totalFiles file filesProcessed,
      destination basePath file = path →
      useStorage.uploadOne E true basePath bucket onProgress totalFiles file
                           filesProcessed w
      = useStorage.uploadOrQueue E file path bucket onProgress totalFiles
                                 filesProcessed w1.
Proof.
  intros Hfails.
  assert (∃ w1, useStorage.fileExists E path w = (Ok false, w1) ∧
                store w1 = store w) as (w1 & Hcheck & Hstore).
  { rewrite fileExists_run. destruct (connector E) eqn:Hconn.
    - destruct Hfails as [?|Hfails]; [congruence|].
      destruct (storage_list E (trace w) "processed-data" path) as [data| |e]
        eqn:Hanswer; [by destruct (Hfails data)|by eexists..].
    - by eexists. }
  exists w1. split_and!; [done..|].
  intros basePath bucket onProgress totalFiles file filesProcessed <-.
  unfold useStorage.uploadOne, bind at 1. fold (destination basePath file).
  by rewrite Hcheck.
Qed.

(** C7 with a listing that times out. *)
Lemma failed_existence_check_means_absent_witness :
  let E := storage_env (ListError "timeout") (UploadData "org/reads.fastq") in
  ∃ w1,
    useStorage.fileExists E "org/reads.fastq" initial_world = (Ok false, w1) ∧
    store w1 = store initial_world ∧
    ∀ basePath bucket onProgress totalFiles file filesProcessed,
      destination basePath file = "org/reads.fastq" →
      useStorage.uploadOne E true basePath bucket onProgress totalFiles file
                           filesProcessed initial_world
      = useStorage.uploadOrQueue E file "org/reads.fastq" bucket onProgress
                                 totalFiles filesProcessed w1.
Proof.
  apply (failed_existence_check_means_absent
           (storage_env (ListError "timeout") (UploadData "org/reads.fastq"))
           "org/reads.fastq" initial_world).
  right. intros data. discriminate.
Defined.

(** ** Buckets addressed by an upload *)

Section buckets.
Context (E : Env) (basePath bucket : string) (onProgress : bool)
(totalFiles : nat).

Lemma local_event_obeys_bucket_rule (e : Event) :
is_remote e = false → bucket_rule bucket e.
Proof. by destruct e. Qed.

Lemma uploadOrQueue_events (file : File) (path : string)
  (filesProcessed : nat) (w : World) :
∃ r w' evs,
  useStorage.uploadOrQueue E file path bucket onProgress totalFiles
                           filesProcessed w = (r, w') ∧
  trace w' = trace w ++ evs ∧ Forall (bucket_rule bucket) evs.
Proof.
unfold useStorage.uploadOrQueue, try_catch, bind at 1.
rewrite uploadFile_run.
destruct (connector E); simpl;
  [destruct (storage_upload E (trace w) bucket path file); simpl|];
  destruct onProgress; simpl;
  (eexists _, _, _; split; [reflexivity|]; split;
   [simpl; rewrite <- ?app_assoc; reflexivity|simpl; by repeat constructor]).
Qed.

Lemma uploadOne_events (isOnline : bool) (file : File)
  (filesProcessed : nat) (w : World) :
∃ r w' evs,
  useStorage.uploadOne E isOnline basePath bucket onProgress totalFiles
                       file filesProcessed w = (r, w') ∧
  trace w' = trace w ++ evs ∧ Forall (bucket_rule bucket) evs.
Proof.
destruct isOnline.
- unfold useStorage.uploadOne, bind at 1. rewrite fileExists_run.
  destruct (connector E); simpl.
  + destruct (list_exists _).
    * destruct onProgress; simpl;
        (eexists _, _, _; split; [reflexivity|]; split;
         [simpl; rewrite <- ?app_assoc; reflexivity
         |simpl; by repeat constructor]).
    * match goal with |- context [useStorage.uploadOrQueue _ ?f ?p _ _ _ ?n
                                    ?w1] =>
        destruct (uploadOrQueue_events f p n w1)
          as (r & w' & evs & -> & Htrace & Hevs) end.
      eexists _, _, (_ :: evs). split; [reflexivity|]. split.
      -- rewrite Htrace. simpl. by rewrite <- app_assoc.
      -- by constructor.
  + apply uploadOrQueue_events.
- destruct (uploadOne_offline E basePath bucket onProgress totalFiles file
              filesProcessed w) as (evs & -> & Hlocal).
  eexists _, _, evs. split_and!; [done..|].
  eapply Forall_impl; [exact Hlocal|].
  apply local_event_obeys_bucket_rule.
Qed.

Lemma uploadFiles_loop_events (isOnline : bool) (files : list File)
  (paths : list string) (filesProcessed : nat) (w : World) :
∃ evs,
  trace (useStorage.uploadFiles_loop E isOnline basePath bucket onProgress
           totalFiles files paths filesProcessed w).2 = trace w ++ evs ∧
  Forall (bucket_rule bucket) evs.
Proof.
revert paths filesProcessed w.
induction files as [|file files IH]; intros paths filesProcessed w.
- exists []. by rewrite app_nil_r.
- rewrite uploadFiles_loop_cons.
  destruct (uploadOne_events isOnline file filesProcessed w)
    as ([n|e] & w1 & evs1 & -> & Htrace1 & Hevs1).
  + match goal with |- context [useStorage.uploadFiles_loop _ _ _ _ _ _ _
                                  ?ps ?fp ?w1] =>
      destruct (IH ps fp w1) as (evs & -> & Hevs) end.
    exists (evs1 ++ evs).
    split; [by rewrite Htrace1, <- app_assoc|by apply Forall_app].
  + by exists evs1.
Qed.

End buckets.

(** C10.  Whatever bucket an upload targets, every existence check lists
    the path in the bucket [processed-data] while the upload itself goes
    to the target bucket: this holds for all storage calls of
    [uploadFiles] and of the queue drain, and with a storage client at
    hand [fileExists] makes exactly that one listing. *)
Theorem existence_check_uses_fixed_bucket (E : Env) (isOnline : bool)
    (files : list File) (basePath bucket : string) (onProgress : bool)
    (w : World) :
  (∃ evs,
     trace (useStorage.uploadFiles E isOnline files basePath bucket
                                   onProgress w).2 = trace w ++ evs ∧
     Forall (bucket_rule bucket) evs) ∧
  (∃ evs,
     trace (useStorage.processUploadQueue E true w).2 = trace w ++ evs ∧
     Forall (λ e, is_remote e = true →
                  ∃ t, t ∈ queued_uploads w ∧ storage_call_of t e) evs) ∧
  ∀ path,
    trace (useStorage.fileExists E path w).2
    = trace w ++
      if connector E
      then [EvList "processed-data" path
                   (storage_list E (trace w) "processed-data" path)]
      else [].
Proof.
  split_and!.
  - apply uploadFiles_loop_events.
  - rewrite processUploadQueue_online.
    destruct (upload_drain_events E (queued_uploads w) w)
      as (w' & evs & -> & Htrace & _ & Hcalls).
    by exists evs.
  - intros path. rewrite fileExists_run.
    destruct (connector E); simpl; [done|by rewrite app_nil_r].
Qed.

(** ** Pulling a table *)

Lemma lookup_foldl_upsert_other (data : list Row) (rows : gmap string Row)
    (id : string) :
  id ∉ row_id <$> data →
  foldl IndexedDBStorage.upsert rows data !! id = rows !! id.
Proof.
  revert rows. induction data as [|r data IH]; intros rows Hid; [done|].
  rewrite fmap_cons, not_elem_of_cons in Hid. destruct Hid as [Hne Hid].
  simpl. rewrite IH by done. unfold IndexedDBStorage.upsert.
  by apply lookup_insert_ne.
Qed.

Lemma syncFromRemote_run (E : Env) (table orgId : string) (since : option Z)
    (w : World) :
  ∃ r evs,
    SyncService.syncFromRemote E table orgId since w
    = (r, {| store :=
               match fetched_rows E (trace w) table orgId since with
               | Some (row :: data) =>
                   set_tables (λ ts,
                     <[table := foldl IndexedDBStorage.upsert
                                  (default ∅ (ts !! table)) (row :: data)]> ts)
                     (store w)
               | _ => store w
               end;
             trace := trace w ++ evs;
             uuid_calls := uuid_calls w; clock_calls := clock_calls w |}).
Proof.
  unfold SyncService.syncFromRemote, fetched_rows, try_catch, bind at 1.
  unfold SyncService.since_filter.
  destruct since as [t|]; [destruct (decide (t = 0)) as [Hzero|Hnonzero];
    [|destruct (decide (Z.abs t ≤ SyncService.MAX_TIME_VALUE))]|];
    unfold bind, call, ret, throw, SyncService.handle,
      IndexedDBStorage.bulkSave, modify_store; simpl;
    try (destruct (remote_select E (trace w) table orgId _)
           as [err|[|row data]]; simpl);
    try destruct (handleError E _ _); simpl;
    try (eexists _, [_]; reflexivity);
    try (eexists _, []; rewrite app_nil_r; by destruct w).
Qed.

(** C8.  [syncFromRemote] leaves every local row alone whose primary key
    is not in the result set of the query, in the synced table as in any
    other, and touches no other region of the store. *)
Theorem sync_from_remote_never_prunes (E : Env) (table orgId : string)
    (since : option Z) (w : World) (t id : string) :
  (t = table →
   ∀ data, fetched_rows E (trace w) table orgId since = Some data →
           id ∉ row_id <$> data) →
  lookup_row (store (SyncService.syncFromRemote E table orgId since w).2) t id
  = lookup_row (store w) t id ∧
  ∃ mirrored,
    store (SyncService.syncFromRemote E table orgId since w).2
    = set_tables (λ _, mirrored) (store w).
Proof.
  intros Hkept.
  destruct (syncFromRemote_run E table orgId since w) as (r & evs & ->).
  cbn [snd store].
  destruct (fetched_rows E (trace w) table orgId since) as [[|row data]|]
    eqn:Hfetched.
  - split; [done|]. exists (tables (store w)). by destruct (store w).
  - split; [|by eexists].
    unfold lookup_row, set_tables. cbn [tables].
    destruct (decide (t = table)) as [->|Hne].
    + rewrite lookup_insert_eq. cbn [mbind option_bind].
      rewrite lookup_foldl_upsert_other by by apply Hkept.
      by destruct (tables (store w) !! table).
    + by rewrite lookup_insert_ne.
  - split; [done|]. exists (tables (store w)). by destruct (store w).
Qed.

(** C8 on [mirrored_world]: the remote no longer has row [a], the local
    copy keeps it. *)
Lemma sync_from_remote_never_prunes_witness :
  lookup_row
    (store (SyncService.syncFromRemote remote_table_env "locations" "org1"
              None mirrored_world).2) "locations" "a"
  = Some row_a.
Proof.
  refine (proj1 (sync_from_remote_never_prunes remote_table_env "locations"
                   "org1" None mirrored_world "locations" "a" _)).
  intros _ data Hdata. injection Hdata as <-.
  apply (bool_decide_unpack _). vm_compute. exact I.
Defined.

(** ** Auth cache *)

(** The claim of C6 fails for profiles: with a local copy at hand,
    [getUserProfile] returns it without asking the remote, which holds a
    newer profile. *)
Lemma cached_profile_skips_remote :
  select_profile profile_env [] "u1" = Answered (Some remote_profile) None ∧
  remote_profile ≠ cached_profile ∧
  AuthService.getUserProfile profile_env "u1" cached_world
  = (Ok cached_profile, cached_world).
Proof. split_and!; [reflexivity|discriminate|reflexivity]. Qed.

(** C6, amended.  [getSession] and [getCurrentUser] always ask the remote
    first; a successful answer overwrites the local mirror and is
    returned, any other answer makes them return the local mirror.
    [getUserProfile] and [getOrganization] read the local mirror first
    and return it without any remote call when it is there; otherwise
    they ask the remote, and a successful answer is stored locally and
    returned, while any other answer makes them throw. *)
Theorem auth_cache_reads (E : Env) (w : World) :
  AuthService.getSession E w
  = (let a := auth_getSession E (trace w) in
     match a with
     | Answered (Some session) None =>
         (Ok (Some session),
          add_events (update_store (set_sessions (Some session)) w)
                     [EvAuthGetSession a])
     | _ => (Ok (sessions (store w)), add_events w [EvAuthGetSession a])
     end) ∧
  AuthService.getCurrentUser E w
  = (let a := auth_getUser E (trace w) in
     match a with
     | Answered (Some user) None =>
         (Ok (Some (current_user user)),
          add_events (update_store (set_users (Some (current_user user))) w)
                     [EvAuthGetUser a])
     | _ => (Ok (users (store w)), add_events w [EvAuthGetUser a])
     end) ∧
  (∀ userId,
     match user_profiles (store w) !! userId with
     | Some profile =>
         AuthService.getUserProfile E userId w = (Ok profile, w)
     | None =>
         let a := select_profile E (trace w) userId in
         match a with
         | Answered (Some data) None =>
             AuthService.getUserProfile E userId w
             = (Ok data,
                add_events
                  (update_store
                     (set_user_profiles (insert (profile_id data) data)) w)
                  [EvSelectProfile userId a])
         | _ =>
             ∃ e, AuthService.getUserProfile E userId w
                  = (Throw e, add_events w [EvSelectProfile userId a])
         end
     end) ∧
  (∀ orgId,
     match organizations (store w) !! orgId with
     | Some organization =>
         AuthService.getOrganization E orgId w = (Ok organization, w)
     | None =>
         let a := select_organization E (trace w) orgId in
         match a with
         | Answered (Some data) None =>
             AuthService.getOrganization E orgId w
             = (Ok data,
                add_events
                  (update_store
                     (set_organizations (insert (org_id data) data)) w)
                  [EvSelectOrganization orgId a])
         | _ =>
             ∃ e, AuthService.getOrganization E orgId w
                  = (Throw e, add_events w [EvSelectOrganization orgId a])
         end
     end).
Proof.
  split_and!.
  - unfold AuthService.getSession, try_catch, bind, call. simpl.
    by destruct (auth_getSession E (trace w)) as [[session|] [e|]|e].
  - unfold AuthService.getCurrentUser, try_catch, bind, call. simpl.
    by destruct (auth_getUser E (trace w)) as [[user|] [e|]|e].
  - intros userId.
    unfold AuthService.getUserProfile, try_catch, bind,
      IndexedDBStorage.getUserProfile, get_store, ret, call. simpl.
    destruct (user_profiles (store w) !! userId) as [profile|]; [done|].
    simpl.
    destruct (select_profile E (trace w) userId) as [[data|] [e|]|e];
      simpl; by eauto.
  - intros orgId.
    unfold AuthService.getOrganization, try_catch, bind,
      IndexedDBStorage.getOrganization, get_store, ret, call. simpl.
    destruct (organizations (store w) !! orgId) as [organization|]; [done|].
    simpl.
    destruct (select_organization E (trace w) orgId) as [[data|] [e|]|e];
      simpl; by eauto.
Qed.


(** * Further properties *)

(** ** Batch submission *)

Section batch.
Context (E : Env) (basePath bucket : string) (onProgress : bool)
  (totalFiles : nat).

Lemma uploadOrQueue_step (file : File) (path : string)
    (filesProcessed : nat) (w : World) :
  ∃ w' evs,
    useStorage.uploadOrQueue E file path bucket onProgress totalFiles
                             filesProcessed w = (Ok (S filesProcessed), w') ∧
    trace w' = trace w ++ evs ∧
    progress_reports evs
    = if onProgress then [EvProgress (S filesProcessed) totalFiles] else [].
Proof.
  unfold useStorage.uploadOrQueue, try_catch, bind at 1.
  rewrite uploadFile_run.
  destruct (connector E); simpl;
    [destruct (storage_upload E (trace w) bucket path file); simpl|];
    destruct onProgress; simpl;
    (eexists _, _; split; [reflexivity|]; split;
     [simpl; rewrite <- ?app_assoc; reflexivity|reflexivity]).
Qed.

(** One turn of the loop never throws, counts the file as processed and
    reports progress once. *)
Lemma uploadOne_step (isOnline : bool) (file : File) (filesProcessed : nat)
    (w : World) :
  ∃ w' evs,
    useStorage.uploadOne E isOnline basePath bucket onProgress totalFiles
                         file filesProcessed w = (Ok (S filesProcessed), w') ∧
    trace w' = trace w ++ evs ∧
    progress_reports evs
    = if onProgress then [EvProgress (S filesProcessed) totalFiles] else [].
Proof.
  destruct isOnline.
  - unfold useStorage.uploadOne, bind at 1. rewrite fileExists_run.
    destruct (connector E); simpl.
    + destruct (list_exists _).
      * destruct onProgress; simpl;
          (eexists _, _; split; [reflexivity|]; split;
           [simpl; rewrite <- ?app_assoc; reflexivity|reflexivity]).
      * match goal with |- context [useStorage.uploadOrQueue _ ?f ?p _ _ _ ?n
                                      ?w1] =>
          destruct (uploadOrQueue_step f p n w1)
            as (w' & evs & -> & Htrace & Hevs) end.
        eexists _, (_ :: evs). split; [reflexivity|]. split.
        -- rewrite Htrace. simpl. by rewrite <- app_assoc.
        -- unfold progress_reports in *.
           by rewrite filter_cons_False.
    + apply uploadOrQueue_step.
  - unfold useStorage.uploadOne.
    destruct onProgress; simpl;
      (eexists _, _; split; [reflexivity|]; split;
       [simpl; rewrite <- ?app_assoc; reflexivity|reflexivity]).
Qed.

Lemma uploadFiles_loop_result (isOnline : bool) (files : list File)
    (paths : list string) (filesProcessed : nat) (w : World) :
  ∃ w' evs,
    useStorage.uploadFiles_loop E isOnline basePath bucket onProgress
      totalFiles files paths filesProcessed w
    = (Ok (paths ++ (destination basePath <$> files)), w') ∧
    trace w' = trace w ++ evs ∧
    progress_reports evs
    = if onProgress
      then (λ k, EvProgress k totalFiles)
             <$> seq (S filesProcessed) (length files)
      else [].
Proof.
  revert paths filesProcessed w.
  induction files as [|file files IH]; intros paths filesProcessed w.
  - exists w, []. simpl. rewrite !app_nil_r. by destruct onProgress.
  - rewrite uploadFiles_loop_cons.
    destruct (uploadOne_step isOnline file filesProcessed w)
      as (w1 & evs1 & -> & Htrace1 & Hevs1).
    destruct (IH (paths ++ [destination basePath file]) (S filesProcessed) w1)
      as (w' & evs & -> & Htrace & Hevs).
    exists w', (evs1 ++ evs). split_and!.
    + by rewrite <- app_assoc.
    + by rewrite Htrace, Htrace1, <- app_assoc.
    + unfold progress_reports in *. rewrite filter_app, Hevs1, Hevs.
      by destruct onProgress.
Qed.

End batch.

(** X1.  Online or offline, and whatever the remote answers,
    [uploadFiles] never throws and returns the derived path of every
    file, in input order. *)
Theorem uploadFiles_returns_every_path (E : Env) (isOnline : bool)
    (files : list File) (basePath bucket : string) (onProgress : bool)
    (w : World) :
  (useStorage.uploadFiles E isOnline files basePath bucket onProgress w).1
  = Ok (destination basePath <$> files).
Proof.
  destruct (uploadFiles_loop_result E basePath bucket onProgress
              (length files) isOnline files [] 0%nat w)
    as (w' & evs & Hrun & _).
  unfold useStorage.uploadFiles. by rewrite Hrun.
Qed.

(** X2.  The progress callback, when given, is called exactly once per
    file, with the counts 1 of n, 2 of n, ..., n of n in this order,
    whether a file was skipped, uploaded or queued; without a callback
    nothing is reported. *)
Theorem uploadFiles_reports_each_file (E : Env) (isOnline : bool)
    (files : list File) (basePath bucket : string) (onProgress : bool)
    (w : World) :
  ∃ evs,
    trace (useStorage.uploadFiles E isOnline files basePath bucket
                                  onProgress w).2 = trace w ++ evs ∧
    progress_reports evs
    = if onProgress
      then (λ k, EvProgress k (length files)) <$> seq 1 (length files)
      else [].
Proof.
  destruct (uploadFiles_loop_result E basePath bucket onProgress
              (length files) isOnline files [] 0%nat w)
    as (w' & evs & Hrun & Htrace & Hevs).
  exists evs. unfold useStorage.uploadFiles. by rewrite Hrun.
Qed.

(** ** Immediate uploads *)

Section immediate.
Context (E : Env) (basePath bucket : string) (onProgress : bool)
  (totalFiles : nat).

Lemma uploadOne_existing (file : File) (filesProcessed : nat) (w : World) :
  connector E = true →
  list_exists (storage_list E (trace w) "processed-data"
                            (destination basePath file)) = true →
  ∃ evs,
    useStorage.uploadOne E true basePath bucket onProgress totalFiles file
                         filesProcessed w
    = (Ok (S filesProcessed), add_events w evs) ∧
    Forall (λ e, is_upload e = false) evs.
Proof.
  intros Hconn Hexists.
  unfold useStorage.uploadOne, bind at 1. rewrite fileExists_run, Hconn.
  fold (destination basePath file). simpl. rewrite Hexists.
  destruct onProgress; simpl.
  - eexists [_; _; _]. split.
    + unfold add_events, bind, useStorage.enqueueSnackbar, emit, ret. simpl.
      by rewrite <- !app_assoc.
    + by repeat constructor.
  - eexists [_; _]. split.
    + unfold add_events, bind, useStorage.enqueueSnackbar, emit, ret. simpl.
      by rewrite <- !app_assoc.
    + by repeat constructor.
Qed.

Lemma uploadFiles_loop_existing (files : list File) (paths : list string)
    (filesProcessed : nat) (w : World) :
  connector E = true →
  (∀ h path, list_exists (storage_list E h "processed-data" path) = true) →
  ∃ evs,
    useStorage.uploadFiles_loop E true basePath bucket onProgress totalFiles
      files paths filesProcessed w
    = (Ok (paths ++ (destination basePath <$> files)), add_events w evs) ∧
    Forall (λ e, is_upload e = false) evs.
Proof.
  intros Hconn Hexists. revert paths filesProcessed w.
  induction files as [|file files IH]; intros paths filesProcessed w.
  - exists []. simpl. rewrite app_nil_r. split; [|done].
    unfold ret, add_events. rewrite app_nil_r. by destruct w.
  - rewrite uploadFiles_loop_cons.
    destruct (uploadOne_existing file filesProcessed w Hconn (Hexists _ _))
      as (evs1 & -> & Hevs1).
    destruct (IH (paths ++ [destination basePath file]) (S filesProcessed)
                 (add_events w evs1)) as (evs & -> & Hevs).
    exists (evs1 ++ evs). rewrite add_events_add_events, <- app_assoc.
    split; [done|by apply Forall_app].
Qed.

End immediate.

(** X3.  Online, when the existence check finds every file, [uploadFiles]
    uploads nothing and queues nothing: the store is untouched, no id is
    drawn, and the trace gains no upload call. *)
Theorem existing_files_are_skipped (E : Env) (files : list File)
    (basePath bucket : string) (onProgress : bool) (w : World) :
  connector E = true →
  (∀ h path, list_exists (storage_list E h "processed-data" path) = true) →
  ∃ evs,
    useStorage.uploadFiles E true files basePath bucket onProgress w
    = (Ok (destination basePath <$> files), add_events w evs) ∧
    Forall (λ e, is_upload e = false) evs.
Proof.
  intros Hconn Hexists.
  apply (uploadFiles_loop_existing E basePath bucket onProgress
           (length files) files [] 0%nat w Hconn Hexists).
Qed.

(** X3 with a storage that lists an entry under every path. *)
Lemma existing_files_are_skipped_witness :
  ∃ evs,
    useStorage.uploadFiles
      (storage_env (ListData ["reads.fastq"]) (UploadError "unused"))
      true [reads_file; survey_file] "org" "raw-data" false initial_world
    = (Ok (destination "org" <$> [reads_file; survey_file]),
       add_events initial_world evs) ∧
    Forall (λ e, is_upload e = false) evs.
Proof.
  apply (existing_files_are_skipped
           (storage_env (ListData ["reads.fastq"]) (UploadError "unused"))
           [reads_file; survey_file] "org" "raw-data" false initial_world).
  - reflexivity.
  - intros h path. reflexivity.
Defined.

(** X4.  Online, a file that the existence check does not find is queued
    exactly when its immediate upload fails: after a successful upload
    the store is as before, after a failed one the queue holds a new
    task for the file, under the id drawn from [uuidv4], with [retries]
    0 and status [queued]. *)
Theorem online_file_is_queued_iff_upload_fails (E : Env)
    (basePath bucket : string) (onProgress : bool) (totalFiles : nat)
    (file : File) (filesProcessed : nat) (w : World) :
  connector E = true →
  list_exists (storage_list E (trace w) "processed-data"
                            (destination basePath file)) = false →
  let path := destination basePath file in
  let check := EvList "processed-data" path
                 (storage_list E (trace w) "processed-data" path) in
  let id := uuidv4 E (uuid_calls w) in
  store (useStorage.uploadOne E true basePath bucket onProgress totalFiles
                              file filesProcessed w).2
  = match storage_upload E (trace w ++ [check]) bucket path file with
    | UploadData _ => store w
    | _ => set_pending_uploads
             (insert id (fresh_task id file basePath bucket)) (store w)
    end.
Proof.
  intros Hconn Habsent. cbv zeta.
  unfold useStorage.uploadOne, bind at 1. rewrite fileExists_run, Hconn.
  fold (destination basePath file). simpl. rewrite Habsent.
  unfold useStorage.uploadOrQueue, try_catch, bind at 1.
  rewrite uploadFile_run, Hconn. simpl.
  by destruct (storage_upload E _ bucket _ file); destruct onProgress.
Qed.

(** X4 with an upload that fails. *)
Lemma online_file_is_queued_iff_upload_fails_witness :
  store (useStorage.uploadOne
           (storage_env (ListData []) (UploadError "network down"))
           true "org" "raw-data" false 1 reads_file 0 initial_world).2
  = set_pending_uploads
      (insert "0" (fresh_task "0" reads_file "org" "raw-data"))
      (store initial_world).
Proof.
  apply (online_file_is_queued_iff_upload_fails
           (storage_env (ListData []) (UploadError "network down"))
           "org" "raw-data" false 1 reads_file 0 initial_world);
    reflexivity.
Defined.

(** ** Drains with a known outcome per task *)

Section drain_outcome.
Context (E : Env) (outcome : UploadTask → option UploadTask)
  (P : Event → Prop).
Context (Hid : ∀ t t', outcome t = Some t' → task_id t' = task_id t).
Context (Hstep : ∀ t w, ∃ evs,
  useStorage.processUploadTask E t w
  = (Ok tt, add_events (with_uploads (write_back t (outcome t)) w) evs) ∧
  Forall P evs).

Lemma drain_outcome_lookup (ts : list UploadTask) (w : World)
    (t : UploadTask) :
  NoDup (task_id <$> ts) → t ∈ ts →
  pending_uploads
    (store (for_each (useStorage.processUploadTask E) ts w).2) !! task_id t
  = outcome t.
Proof.
  revert w. induction ts as [|t' ts IH]; intros w Hnodup Ht.
  { by apply elem_of_nil in Ht. }
  rewrite fmap_cons in Hnodup. apply NoDup_cons in Hnodup as [Hfresh Hnodup].
  destruct (Hstep t' w) as (evs & Hrun & _).
  simpl. unfold bind. rewrite Hrun.
  apply elem_of_cons in Ht as [->|Ht]; [|by apply IH].
  rewrite upload_drain_frame by done. simpl. unfold write_back.
  destruct (outcome t'); [apply lookup_insert_eq|apply lookup_delete_eq].
Qed.

Lemma drain_outcome_events (ts : list UploadTask) (w : World) :
  ∃ evs,
    trace (for_each (useStorage.processUploadTask E) ts w).2 = trace w ++ evs ∧
    Forall P evs.
Proof.
  revert w. induction ts as [|t ts IH]; intros w.
  - exists []. by rewrite app_nil_r.
  - destruct (Hstep t w) as (evs1 & Hrun & Hevs1).
    simpl. unfold bind. rewrite Hrun.
    destruct (IH (add_events (with_uploads (write_back t (outcome t)) w) evs1))
      as (evs & -> & Hevs).
    exists (evs1 ++ evs). simpl.
    split; [by rewrite <- app_assoc|by apply Forall_app].
Qed.

(** One drain maps the queue through [outcome]. *)
Lemma drain_outcome_queue (w : World) :
  keyed task_id (pending_uploads (store w)) →
  pending_uploads (store (useStorage.processUploadQueue E true w).2)
  = omap outcome (pending_uploads (store w)).
Proof.
  intros Hkeyed. rewrite processUploadQueue_online.
  apply map_eq. intros k. rewrite lookup_omap.
  destruct (pending_uploads (store w) !! k) as [t|] eqn:Hk; simpl.
  - rewrite <- (Hkeyed k t Hk). apply drain_outcome_lookup.
    + unfold queued_uploads. rewrite (keyed_snapshot_keys _ _ Hkeyed).
      apply NoDup_fst_map_to_list.
    + unfold queued_uploads. apply list_elem_of_fmap.
      exists (k, t). split; [done|]. by apply elem_of_map_to_list.
  - rewrite upload_drain_frame; [done|].
    unfold queued_uploads. rewrite (keyed_snapshot_keys _ _ Hkeyed).
    intros Hin. apply list_elem_of_fmap in Hin as ([k' t] & -> & Hel).
    apply elem_of_map_to_list in Hel. simpl in Hk. congruence.
Qed.

Lemma keyed_omap_outcome (m : gmap string UploadTask) :
  keyed task_id m → keyed task_id (omap outcome m).
Proof.
  intros Hkeyed k t' Hk. rewrite lookup_omap in Hk.
  destruct (m !! k) as [t|] eqn:Hmk; simpl in Hk; [|done].
  rewrite (Hid _ _ Hk). by apply (Hkeyed k t).
Qed.

End drain_outcome.

(** ** Drains against a storage that keeps failing *)

Section failing_storage.
Context (E : Env).
Context (Hconn : connector E = true).
Context (Habsent :
  ∀ h path, list_exists (storage_list E h "processed-data" path) = false).
Context (Hfails : ∀ h bucket path file p,
  storage_upload E h bucket path file ≠ UploadData p).

Lemma processUploadTask_failing (t : UploadTask) (w : World) :
  ∃ evs,
    useStorage.processUploadTask E t w
    = (Ok tt, add_events
                (with_uploads (write_back t (after_failed_drain t)) w) evs) ∧
    Forall (λ _, True) evs.
Proof.
  rewrite processUploadTask_run, fileExists_run, Hconn. simpl.
  rewrite Habsent, uploadFile_run, Hconn. simpl.
  destruct (storage_upload E _ _ _ _) as [p| |e] eqn:Hup;
    [by apply Hfails in Hup|..]; simpl;
    unfold after_failed_drain, write_back; case_decide;
    rewrite ?with_uploads_add_events, ?add_events_add_events;
    (eexists; split; [reflexivity|by apply Forall_forall]).
Qed.

Lemma after_failed_drain_id (t t' : UploadTask) :
  after_failed_drain t = Some t' → task_id t' = task_id t.
Proof. unfold after_failed_drain. case_decide; [|done]. by intros [= <-]. Qed.

Lemma failing_drain_queue (w : World) :
  keyed task_id (pending_uploads (store w)) →
  pending_uploads (store (useStorage.processUploadQueue E true w).2)
  = omap after_failed_drain (pending_uploads (store w)).
Proof.
  apply (drain_outcome_queue E after_failed_drain (λ _, True)
           processUploadTask_failing).
Qed.

Lemma failing_drain_keyed (w : World) :
  keyed task_id (pending_uploads (store w)) →
  keyed task_id
    (pending_uploads (store (useStorage.processUploadQueue E true w).2)).
Proof.
  intros Hkeyed. rewrite failing_drain_queue by done.
  by apply (keyed_omap_outcome after_failed_drain after_failed_drain_id).
Qed.

End failing_storage.



(** X6.  A freshly queued task whose upload keeps failing stays in the
    queue through three online drains, with [retries] 1, 2 and 3, and is
    removed by the fourth. *)
Theorem failing_task_is_dropped_by_fourth_drain (E : Env) (w : World)
    (t : UploadTask) :
  connector E = true →
  (∀ h path, list_exists (storage_list E h "processed-data" path) = false) →
  (∀ h bucket path file p,
     storage_upload E h bucket path file ≠ UploadData p) →
  keyed task_id (pending_uploads (store w)) →
  pending_uploads (store w) !! task_id t = Some t →
  retries t = 0 →
  pending_uploads (store (after_drains E 1 w)) !! task_id t
  = Some (retried t) ∧
  pending_uploads (store (after_drains E 2 w)) !! task_id t
  = Some (retried (retried t)) ∧
  pending_uploads (store (after_drains E 3 w)) !! task_id t
  = Some (retried (retried (retried t))) ∧
  pending_uploads (store (after_drains E 4 w)) !! task_id t = None.
Proof.
  intros Hconn Habsent Hfails Hkeyed Hqueued Hfresh.
  pose proof (failing_drain_keyed E Hconn Habsent Hfails) as Hk.
  pose proof (failing_drain_queue E Hconn Habsent Hfails) as Hq.
  assert (∀ w', keyed task_id (pending_uploads (store w')) →
            ∀ t', pending_uploads (store w') !! task_id t = Some t' →
                  pending_uploads
                    (store (useStorage.processUploadQueue E true w').2)
                    !! task_id t = after_failed_drain t') as Hone.
  { intros w' Hkeyed' t' Ht'. rewrite Hq by done.
    by rewrite lookup_omap, Ht'. }
  assert (after_failed_drain t = Some (retried t)) as H1.
  { unfold after_failed_drain. rewrite decide_True; [done|lia]. }
  assert (after_failed_drain (retried t) = Some (retried (retried t))) as H2.
  { unfold after_failed_drain. rewrite decide_True; [done|simpl; lia]. }
  assert (after_failed_drain (retried (retried t))
          = Some (retried (retried (retried t)))) as H3.
  { unfold after_failed_drain. rewrite decide_True; [done|simpl; lia]. }
  assert (after_failed_drain (retried (retried (retried t))) = None) as H4.
  { unfold after_failed_drain. rewrite decide_False; [done|simpl; lia]. }
  simpl.
  set (w1 := (useStorage.processUploadQueue E true w).2).
  set (w2 := (useStorage.processUploadQueue E true w1).2).
  set (w3 := (useStorage.processUploadQueue E true w2).2).
  assert (pending_uploads (store w1) !! task_id t = Some (retried t)) as L1.
  { unfold w1. by rewrite (Hone w Hkeyed t Hqueued). }
  assert (keyed task_id (pending_uploads (store w1))) as K1 by by apply Hk.
  assert (pending_uploads (store w2) !! task_id t
          = Some (retried (retried t))) as L2.
  { unfold w2. by rewrite (Hone w1 K1 _ L1). }
  assert (keyed task_id (pending_uploads (store w2))) as K2 by by apply Hk.
  assert (pending_uploads (store w3) !! task_id t
          = Some (retried (retried (retried t)))) as L3.
  { unfold w3. by rewrite (Hone w2 K2 _ L2). }
  assert (keyed task_id (pending_uploads (store w3))) as K3 by by apply Hk.
  split_and!; [done..|].
  by rewrite (Hone w3 K3 _ L3).
Qed.

(** X6 on [fresh_queue]. *)
Lemma failing_task_is_dropped_by_fourth_drain_witness :
  let E := storage_env (ListData []) (UploadError "network down") in
  let t := fresh_task "0" reads_file "org" "raw-data" in
  pending_uploads (store (after_drains E 1 fresh_queue)) !! "0"
  = Some (retried t) ∧
  pending_uploads (store (after_drains E 2 fresh_queue)) !! "0"
  = Some (retried (retried t)) ∧
  pending_uploads (store (after_drains E 3 fresh_queue)) !! "0"
  = Some (retried (retried (retried t))) ∧
  pending_uploads (store (after_drains E 4 fresh_queue)) !! "0" = None.
Proof.
  apply (failing_task_is_dropped_by_fourth_drain
           (storage_env (ListData []) (UploadError "network down"))
           fresh_queue (fresh_task "0" reads_file "org" "raw-data")).
  - reflexivity.
  - intros h path. reflexivity.
  - intros h bucket path file p. discriminate.
  - unfold keyed. apply (bool_decide_unpack _). vm_compute. exact I.
  - reflexivity.
  - reflexivity.
Defined.

(** ** Drains against a storage that already holds the files *)

Section present_files.
Context (E : Env).
Context (Hconn : connector E = true).
Context (Hpresent :
  ∀ h path, list_exists (storage_list E h "processed-data" path) = true).

Lemma processUploadTask_present (t : UploadTask) (w : World) :
  ∃ evs,
    useStorage.processUploadTask E t w
    = (Ok tt, add_events (with_uploads (write_back t None) w) evs) ∧
    Forall (λ e, is_upload e = false) evs.
Proof.
  rewrite processUploadTask_run, fileExists_run, Hconn. simpl.
  rewrite Hpresent, with_uploads_add_events, add_events_add_events.
  eexists. split; [reflexivity|]. by repeat constructor.
Qed.

End present_files.

(** X7.  When the existence check finds the file of every queued task,
    one online drain empties the upload queue without making a single
    upload call. *)
Theorem present_files_empty_the_queue (E : Env) (w : World) :
  connector E = true →
  (∀ h path, list_exists (storage_list E h "processed-data" path) = true) →
  keyed task_id (pending_uploads (store w)) →
  pending_uploads (store (useStorage.processUploadQueue E true w).2) = ∅ ∧
  ∃ evs,
    trace (useStorage.processUploadQueue E true w).2 = trace w ++ evs ∧
    Forall (λ e, is_upload e = false) evs.
Proof.
  intros Hconn Hpresent Hkeyed. split.
  - rewrite (drain_outcome_queue E (λ _, None) (λ e, is_upload e = false)
               (processUploadTask_present E Hconn Hpresent) w Hkeyed).
    apply map_eq. intros k. rewrite lookup_omap, lookup_empty.
    by destruct (pending_uploads (store w) !! k).
  - rewrite processUploadQueue_online.
    apply (drain_outcome_events E (λ _, None) (λ e, is_upload e = false)
             (processUploadTask_present E Hconn Hpresent)).
Qed.

(** X7 on [fresh_queue] with a storage that lists the file. *)
Lemma present_files_empty_the_queue_witness :
  let E := storage_env (ListData ["reads.fastq"]) (UploadError "unused") in
  pending_uploads (store (useStorage.processUploadQueue E true fresh_queue).2)
  = ∅ ∧
  ∃ evs,
    trace (useStorage.processUploadQueue E true fresh_queue).2
    = trace fresh_queue ++ evs ∧
    Forall (λ e, is_upload e = false) evs.
Proof.
  apply (present_files_empty_the_queue
           (storage_env (ListData ["reads.fastq"]) (UploadError "unused"))
           fresh_queue).
  - reflexivity.
  - intros h path. reflexivity.
  - unfold keyed. apply (bool_decide_unpack _). vm_compute. exact I.
Defined.

(** ** Complete sync drains *)

Lemma delete_all_snapshot (w : World) :
  keyed op_id (pending_operations (store w)) →
  delete_all (snapshot w) (pending_operations (store w)) = ∅.
Proof.
  intros Hkeyed. apply map_eq. intros k.
  rewrite lookup_delete_all, lookup_empty.
  case_decide as Hin; [done|].
  destruct (pending_operations (store w) !! k) as [op|] eqn:Hk; [|done].
  destruct Hin. unfold snapshot.
  rewrite merge_sort_Permutation, (keyed_snapshot_keys _ _ Hkeyed).
  apply list_elem_of_fmap. exists (k, op). split; [done|].
  by apply elem_of_map_to_list.
Qed.

Lemma drain_acknowledged (E : Env) (ops : list PendingOperation) (w : World) :
  (∀ h op, remote_answer E h op = None) →
  for_each (SyncService.syncOperation E) ops w = (Ok tt, drained w ops []).
Proof.
  intros Hack. revert w. induction ops as [|op ops IH]; intros w.
  - destruct w as [[] ? ? ?]. simpl.
    unfold ret, drained, delete_all, acknowledged; simpl.
    by rewrite app_nil_r.
  - simpl. unfold bind. rewrite syncOperation_run, Hack, IH.
    unfold drained, acknowledged; simpl. by rewrite <- !app_assoc.
Qed.

(** X8.  When the remote acknowledges every call, [syncToRemote] returns
    normally after one remote call per pending operation, made in the
    order of the queue read, which is ascending in timestamp, and on a
    keyed store it leaves the queue empty. *)
Theorem acknowledged_sync_empties_queue (E : Env) (w : World) :
  (∀ h op, remote_answer E h op = None) →
  keyed op_id (pending_operations (store w)) →
  (SyncService.syncToRemote E w).1 = Ok tt ∧
  trace (SyncService.syncToRemote E w).2
  = trace w ++ acknowledged (snapshot w) ∧
  StronglySorted earlier (snapshot w) ∧
  pending_operations (store (SyncService.syncToRemote E w).2) = ∅.
Proof.
  intros Hack Hkeyed.
  assert (SyncService.syncToRemote E w = (Ok tt, drained w (snapshot w) []))
    as ->.
  { change (SyncService.syncToRemote E w)
      with (match for_each (SyncService.syncOperation E) (snapshot w) w with
            | (Ok a, w') => (Ok a, w')
            | (Throw e, w') =>
                SyncService.handle E e "Failed to sync to remote" w'
            end).
    by rewrite drain_acknowledged. }
  split_and!.
  - done.
  - simpl. by rewrite app_nil_r.
  - apply StronglySorted_merge_sort; apply _.
  - simpl. by apply delete_all_snapshot.
Qed.

(** X8 on [two_pending]: the create stamped 1000 is sent before the
    update stamped 1001. *)
Lemma acknowledged_sync_empties_queue_witness :
  (SyncService.syncToRemote quiet_env two_pending).1 = Ok tt ∧
  trace (SyncService.syncToRemote quiet_env two_pending).2
  = trace two_pending ++ acknowledged (snapshot two_pending) ∧
  StronglySorted earlier (snapshot two_pending) ∧
  pending_operations (store (SyncService.syncToRemote quiet_env two_pending).2)
  = ∅.
Proof.
  apply (acknowledged_sync_empties_queue quiet_env two_pending).
  - intros h op. unfold remote_answer. by destruct (op_type op).
  - unfold keyed. apply (bool_decide_unpack _). vm_compute. exact I.
Defined.

Lemma drain_logged (E : Env) (ops : list PendingOperation) (w : World) :
  (∀ e message, handleError E e message = None) →
  ∃ answers,
    length answers = length ops ∧
    for_each (SyncService.syncOperation E) ops w
    = (Ok tt,
       {| store := set_pending_operations (delete_all ops) (store w);
          trace := trace w ++ answered ops answers;
          uuid_calls := uuid_calls w; clock_calls := clock_calls w |}).
Proof.
  intros Hlogs. revert w. induction ops as [|op ops IH]; intros w.
  - exists []. split; [done|]. destruct w as [[] ? ? ?]. simpl.
    unfold ret, delete_all; simpl. by rewrite app_nil_r.
  - simpl. unfold bind. rewrite syncOperation_run.
    destruct (remote_answer E (trace w) op) as [e|] eqn:Hanswer;
      [rewrite Hlogs|];
      match goal with |- context [for_each _ ops ?w1] =>
        destruct (IH w1) as (answers & Hlen & ->) end;
      [exists (Some e :: answers)|exists (None :: answers)];
      (split; [simpl; by rewrite Hlen|]);
      unfold answered; simpl; by rewrite <- !app_assoc.
Qed.

(** X9.  Whether a failed operation stays queued rests on [handleError]
    alone: with a [handleError] that returns normally, [syncToRemote]
    makes one remote call per pending operation, returns normally and
    leaves the queue of a keyed store empty, although calls have
    failed. *)
Theorem logging_handler_loses_failed_operations (E : Env) (w : World) :
  (∀ e message, handleError E e message = None) →
  keyed op_id (pending_operations (store w)) →
  (SyncService.syncToRemote E w).1 = Ok tt ∧
  pending_operations (store (SyncService.syncToRemote E w).2) = ∅ ∧
  ∃ answers,
    length answers = length (snapshot w) ∧
    trace (SyncService.syncToRemote E w).2
    = trace w ++ answered (snapshot w) answers.
Proof.
  intros Hlogs Hkeyed.
  destruct (drain_logged E (snapshot w) w Hlogs) as (answers & Hlen & Hrun).
  change (SyncService.syncToRemote E w)
    with (match for_each (SyncService.syncOperation E) (snapshot w) w with
          | (Ok a, w') => (Ok a, w')
          | (Throw e, w') =>
              SyncService.handle E e "Failed to sync to remote" w'
          end).
  rewrite Hrun. split_and!.
  - done.
  - simpl. by apply delete_all_snapshot.
  - by exists answers.
Qed.

(** X9 on [two_pending] with a remote that rejects the create. *)
Lemma logging_handler_loses_failed_operations_witness :
  (SyncService.syncToRemote logging_env two_pending).1 = Ok tt ∧
  pending_operations
    (store (SyncService.syncToRemote logging_env two_pending).2) = ∅ ∧
  ∃ answers,
    length answers = length (snapshot two_pending) ∧
    trace (SyncService.syncToRemote logging_env two_pending).2
    = trace two_pending ++ answered (snapshot two_pending) answers.
Proof.
  apply (logging_handler_loses_failed_operations logging_env two_pending).
  - intros e message. reflexivity.
  - unfold keyed. apply (bool_decide_unpack _). vm_compute. exact I.
Defined.

(** ** The [since] argument and the rows pulled *)

(** X10.  A [since] of 0 is treated as no [since] at all, and a [since]
    beyond the range of [Date] makes [syncFromRemote] give up before it
    asks the remote: the world is left as it was and the outcome is
    whatever [handleError] makes of the range error. *)
Theorem since_edge_cases (E : Env) (table orgId : string) (w : World) :
  SyncService.syncFromRemote E table orgId (Some 0) w
  = SyncService.syncFromRemote E table orgId None w ∧
  ∀ t, SyncService.MAX_TIME_VALUE < Z.abs t →
       SyncService.syncFromRemote E table orgId (Some t) w
       = (match handleError E "Invalid time value"
                  ("Failed to sync " +:+ table +:+ " from remote") with
          | Some e => Throw e
          | None => Ok tt
          end, w).
Proof.
  split; [done|]. intros t Hrange.
  unfold SyncService.syncFromRemote, SyncService.since_filter, try_catch,
    bind at 1.
  rewrite decide_False by (unfold SyncService.MAX_TIME_VALUE in Hrange; lia).
  rewrite decide_False by lia.
  unfold throw, SyncService.handle.
  by destruct (handleError E _ _).
Qed.

(** X10 for a time far beyond the range of [Date]. *)
Lemma since_edge_cases_witness :
  SyncService.syncFromRemote remote_table_env "locations" "org1"
                             (Some 9000000000000000) mirrored_world
  = (Throw "Invalid time value", mirrored_world).
Proof.
  apply (proj2 (since_edge_cases remote_table_env "locations" "org1"
                  mirrored_world) 9000000000000000).
  reflexivity.
Defined.

Lemma lookup_foldl_upsert_in (data : list Row) (rows : gmap string Row)
    (r : Row) :
  NoDup (row_id <$> data) → r ∈ data →
  foldl IndexedDBStorage.upsert rows data !! row_id r = Some r.
Proof.
  revert rows. induction data as [|r' data IH]; intros rows Hnodup Hr.
  { by apply elem_of_nil in Hr. }
  rewrite fmap_cons in Hnodup. apply NoDup_cons in Hnodup as [Hfresh Hnodup].
  simpl. apply elem_of_cons in Hr as [->|Hr]; [|by apply IH].
  rewrite lookup_foldl_upsert_other by done.
  apply lookup_insert_eq.
Qed.

(** X11.  After a pull whose result set has distinct primary keys, every
    row of the result set is the local copy under its key, whatever was
    stored there before. *)
Theorem pulled_rows_are_mirrored (E : Env) (table orgId : string)
    (since : option Z) (w : World) (data : list Row) (r : Row) :
  fetched_rows E (trace w) table orgId since = Some data →
  NoDup (row_id <$> data) →
  r ∈ data →
  lookup_row (store (SyncService.syncFromRemote E table orgId since w).2)
             table (row_id r) = Some r.
Proof.
  intros Hfetched Hnodup Hr.
  destruct (syncFromRemote_run E table orgId since w) as (res & evs & ->).
  cbn [snd store]. rewrite Hfetched.
  destruct data as [|row data]; [by apply elem_of_nil in Hr|].
  unfold lookup_row, set_tables. cbn [tables].
  rewrite lookup_insert_eq. cbn [mbind option_bind].
  by apply lookup_foldl_upsert_in.
Qed.

(** X11 on [mirrored_world]: the local row [b] is replaced by the remote
    one. *)
Lemma pulled_rows_are_mirrored_witness :
  lookup_row
    (store (SyncService.syncFromRemote remote_table_env "locations" "org1"
              None mirrored_world).2) "locations" "b"
  = Some row_b'.
Proof.
  apply (pulled_rows_are_mirrored remote_table_env "locations" "org1" None
           mirrored_world [row_b'] row_b').
  - reflexivity.
  - apply (bool_decide_unpack _). vm_compute. exact I.
  - apply (bool_decide_unpack _). vm_compute. exact I.
Defined.

(** ** Enqueue and remove *)

(** X12.  Removing the id an [enqueue] has just stored the operation
    under undoes the [enqueue] on the queue, provided the id was not in
    use before. *)
Theorem remove_undoes_enqueue (E : Env) (operation : OperationIntent)
    (w : World) :
  pending_operations (store w) !! uuidv4 E (uuid_calls w) = None →
  pending_operations
    (store ((OperationQueue.enqueue E operation ;;;
             OperationQueue.remove (uuidv4 E (uuid_calls w))) w).2)
  = pending_operations (store w).
Proof.
  intros Hfresh.
  unfold OperationQueue.enqueue, OperationQueue.remove,
    IndexedDBStorage.addPendingOperation,
    IndexedDBStorage.deletePendingOperation, modify_store, bind, next_uuid,
    now; simpl.
  by apply delete_insert_id.
Qed.

(** X12 on the empty queue. *)
Lemma remove_undoes_enqueue_witness :
  pending_operations
    (store ((OperationQueue.enqueue quiet_env sample_create ;;;
             OperationQueue.remove "0") initial_world).2)
  = ∅.
Proof.
  apply (remove_undoes_enqueue quiet_env sample_create initial_world).
  reflexivity.
Defined.

(** ** Locally cached session *)

Lemma getLocalSession_run (E : Env) (w : World) :
  AuthService.getLocalSession E w
  = match sessions (store w) with
    | Some s =>
        match expires_at s with
        | Some expiry =>
            if decide (expiry = 0) then (Ok None, w)
            else
              let w1 := {| store := store w; trace := trace w;
                           uuid_calls := uuid_calls w;
                           clock_calls := S (clock_calls w) |} in
              if decide (AuthService.still_valid expiry
                           (Date_now E (clock_calls w)))
              then (Ok (Some s), w1)
              else (Ok None, update_store (set_sessions None) w1)
        | None => (Ok None, w)
        end
    | None => (Ok None, w)
    end.
Proof.
  unfold AuthService.getLocalSession, try_catch, bind,
    IndexedDBStorage.getSession, get_store, ret; simpl.
  destruct (sessions (store w)) as [s|]; [|done].
  destruct (expires_at s) as [expiry|]; [|done].
  case_decide; [done|]. unfold now; simpl. by case_decide.
Qed.

(** X13.  [getLocalSession] never throws, and a session it returns is the
    cached one and expires strictly after the current time. *)
Theorem local_session_is_not_expired (E : Env) (w : World) :
  match (AuthService.getLocalSession E w).1 with
  | Ok (Some s) =>
      sessions (store w) = Some s ∧
      ∃ expiry, expires_at s = Some expiry ∧
                Date_now E (clock_calls w) < expiry * 1000
  | Ok None => True
  | Throw _ => False
  end.
Proof.
  rewrite getLocalSession_run.
  destruct (sessions (store w)) as [s|]; [|done].
  destruct (expires_at s) as [expiry|] eqn:Hexpiry; [|done].
  case_decide; [done|]. simpl. case_decide as Hvalid; [|done].
  simpl. split; [done|]. exists expiry. split; [done|]. by destruct Hvalid.
Qed.

(** X14.  A cached session with a non-zero expiry that is not ahead of the
    current time is removed from the local store and not returned; a
    cached session without expiry, or with expiry 0, is not returned
    either but stays in the local store. *)
Theorem expired_session_is_purged (E : Env) (w : World) (s : Session) :
  sessions (store w) = Some s →
  (∀ expiry, expires_at s = Some expiry → expiry ≠ 0 →
             expiry * 1000 ≤ Date_now E (clock_calls w) →
             (AuthService.getLocalSession E w).1 = Ok None ∧
             sessions (store (AuthService.getLocalSession E w).2) = None) ∧
  (expires_at s = None ∨ expires_at s = Some 0 →
   AuthService.getLocalSession E w = (Ok None, w)).
Proof.
  intros Hcached. rewrite getLocalSession_run, Hcached. split.
  - intros expiry -> Hnonzero Hpast.
    rewrite decide_False by done. simpl.
    rewrite decide_False; [done|].
    unfold AuthService.still_valid. lia.
  - intros [->| ->]; [done|]. by rewrite decide_True.
Qed.

(** X14 on a world caching a session that expired long ago. *)
Lemma expired_session_is_purged_witness :
  let w := update_store (set_sessions (Some expired_session)) initial_world in
  (AuthService.getLocalSession quiet_env w).1 = Ok None ∧
  sessions (store (AuthService.getLocalSession quiet_env w).2) = None.
Proof.
  apply (proj1 (expired_session_is_purged quiet_env
                  (update_store (set_sessions (Some expired_session))
                                initial_world)
                  expired_session eq_refl) 1).
  - reflexivity.
  - discriminate.
  - simpl. lia.
Defined.

(** ** Signing in and out *)

(** X15.  When [signInWithPassword] throws, reports an error, or returns
    no user or no session, [signIn] throws and leaves the world as it
    was: nothing is cached and no further call is made. *)
Theorem rejected_sign_in_changes_nothing (E : Env) (answer : SignInResponse)
    (localStorage : gmap string string) (w : World) :
  ¬ accepted answer →
  ∃ e, AuthService.signIn E answer localStorage w = (Throw e, w).
Proof.
  intros Hrejected. unfold AuthService.signIn, try_catch, throw.
  destruct answer as [[user|] [session|] [e|]|e]; try by eexists.
  destruct Hrejected. by exists user, session.
Qed.

(** X15 with wrong credentials. *)
Lemma rejected_sign_in_changes_nothing_witness :
  ∃ e, AuthService.signIn quiet_env
         (SignInAnswered None None (Some "Invalid login credentials"))
         ∅ initial_world = (Throw e, initial_world).
Proof.
  apply (rejected_sign_in_changes_nothing quiet_env
           (SignInAnswered None None (Some "Invalid login credentials"))
           ∅ initial_world).
  intros (user & session & Heq). discriminate.
Defined.

Lemma signIn_without_profile (E : Env) (user : RemoteUser)
    (session : Session) (localStorage : gmap string string) (w : World) :
  user_profiles (store w) !! ru_id user = None →
  (∀ data, select_profile E (trace w) (ru_id user)
           ≠ Answered (Some data) None) →
  ∃ e,
    AuthService.signIn E (SignInAnswered (Some user) (Some session) None)
                       localStorage w
    = (Throw e,
       add_events
         (update_store
            (λ st, set_users (Some (current_user user))
                             (set_sessions (Some session) st)) w)
         [EvSelectProfile (ru_id user)
                          (select_profile E (trace w) (ru_id user))]).
Proof.
  intros Hmiss Hremote.
  unfold AuthService.signIn, AuthService.getUserProfile, try_catch, bind,
    IndexedDBStorage.saveSession, IndexedDBStorage.saveUser,
    IndexedDBStorage.getUserProfile, modify_store, get_store, ret, call,
    throw; simpl.
  rewrite Hmiss. simpl.
  destruct (select_profile E (trace w) (ru_id user)) as [[data|] [e|]|e]
    eqn:Hanswer; try (by destruct (Hremote data)); simpl; by eexists.
Qed.

(** X16.  [signIn] caches the session and the user before it reads the
    profile: when the user has no cached profile and the remote does not
    deliver one, [signIn] throws, yet the session and the user of the
    accepted sign-in are in the local store. *)
Theorem failed_profile_leaves_session_cached (E : Env) (user : RemoteUser)
    (session : Session) (localStorage : gmap string string) (w : World) :
  user_profiles (store w) !! ru_id user = None →
  (∀ data, select_profile E (trace w) (ru_id user)
           ≠ Answered (Some data) None) →
  let r := AuthService.signIn E (SignInAnswered (Some user) (Some session)
                                                None) localStorage w in
  (∃ e, r.1 = Throw e) ∧
  sessions (store r.2) = Some session ∧
  users (store r.2) = Some (current_user user) ∧
  user_profiles (store r.2) = user_profiles (store w).
Proof.
  intros Hmiss Hremote. cbv zeta.
  destruct (signIn_without_profile E user session localStorage w Hmiss Hremote)
    as [e ->].
  split_and!; [by exists e|done..].
Qed.

(** X16 with a remote that has no profile for the user. *)
Lemma failed_profile_leaves_session_cached_witness :
  let r := AuthService.signIn quiet_env
             (SignInAnswered (Some remote_user) (Some undated_session) None)
             ∅ initial_world in
  (∃ e, r.1 = Throw e) ∧
  sessions (store r.2) = Some undated_session ∧
  users (store r.2) = Some (current_user remote_user) ∧
  user_profiles (store r.2) = ∅.
Proof.
  apply (failed_profile_leaves_session_cached quiet_env remote_user
           undated_session ∅ initial_world).
  - reflexivity.
  - intros data. discriminate.
Defined.

Lemma getSession_fallback (E : Env) (w : World) :
  (∀ session, auth_getSession E (trace w) ≠ Answered (Some session) None) →
  (AuthService.getSession E w).1 = Ok (sessions (store w)).
Proof.
  intros Hnone.
  unfold AuthService.getSession, try_catch, bind, call. simpl.
  destruct (auth_getSession E (trace w)) as [[session|] [e|]|e] eqn:Hanswer;
    try done. by destruct (Hnone session).
Qed.

(** X17.  [signOut] is all or nothing on the local store: when the remote
    sign-out fails it throws and changes nothing; when it succeeds the
    cached session, user, profiles and organizations and the stored
    license key are gone, while the pending operations, the pending
    uploads and the mirrored tables are kept, and a later [getSession]
    whose remote call brings no session answers [null]. *)
Theorem sign_out_clears_only_the_auth_cache (E : Env) (error : Err)
    (localStorage : gmap string string) (w : World) :
  AuthService.signOut (Some error) localStorage w = (Throw error, w) ∧
  let r := AuthService.signOut None localStorage w in
  r.1 = Ok (delete LICENSE_KEY_STORAGE_KEY localStorage) ∧
  store r.2
  = {| pending_operations := pending_operations (store w);
       pending_uploads := pending_uploads (store w);
       tables := tables (store w);
       sessions := None; users := None;
       user_profiles := ∅; organizations := ∅ |} ∧
  trace r.2 = trace w ∧
  ((∀ session, auth_getSession E (trace w) ≠ Answered (Some session) None) →
   (AuthService.getSession E r.2).1 = Ok None).
Proof.
  split; [done|]. cbv zeta. split_and!; [done..|].
  intros Hnone. by rewrite getSession_fallback.
Qed.

(** X17 on a world caching an expired session. *)
Lemma sign_out_clears_only_the_auth_cache_witness :
  let w := update_store (set_sessions (Some expired_session)) initial_world in
  (AuthService.getSession quiet_env
     (AuthService.signOut None ∅ w).2).1 = Ok None.
Proof.
  refine (proj2 (proj2 (proj2 (proj2
    (sign_out_clears_only_the_auth_cache quiet_env "unused" ∅
       (update_store (set_sessions (Some expired_session)) initial_world)))))
    _).
  intros session. discriminate.
Defined.

(** X18.  With a cached profile for the user that names no organization
    (none, or the empty string), an accepted [signIn] completes from the
    cache: it makes no profile or organization request, returns the
    cached profile, no organization and the license key held in
    [localStorage], and has the session, the user and the profile in the
    local store. *)
Theorem sign_in_completes_from_cached_profile (E : Env) (user : RemoteUser)
    (session : Session) (profile : UserProfile)
    (localStorage : gmap string string) (w : World) :
  user_profiles (store w) !! ru_id user = Some profile →
  organization_id profile = None ∨
  organization_id profile = Some EmptyString →
  AuthService.signIn E (SignInAnswered (Some user) (Some session) None)
                     localStorage w
  = (Ok {| signed_user := current_user user;
           signed_profile := profile;
           signed_organization := None;
           storedLicenseKey := localStorage !! LICENSE_KEY_STORAGE_KEY |},
     update_store
       (λ st, set_user_profiles (insert (profile_id profile) profile)
                (set_users (Some (current_user user))
                   (set_sessions (Some session) st))) w).
Proof.
  intros Hcached Horg.
  unfold AuthService.signIn, AuthService.getUserProfile, try_catch, bind,
    IndexedDBStorage.saveSession, IndexedDBStorage.saveUser,
    IndexedDBStorage.getUserProfile, IndexedDBStorage.saveUserProfile,
    modify_store, get_store, ret; simpl.
  rewrite Hcached. simpl.
  by destruct Horg as [-> | ->].
Qed.

(** X18 on [orphan_world]. *)
Lemma sign_in_completes_from_cached_profile_witness :
  (AuthService.signIn quiet_env
     (SignInAnswered (Some remote_user) (Some undated_session) None)
     ∅ orphan_world).1
  = Ok {| signed_user := current_user remote_user;
          signed_profile := orphan_profile;
          signed_organization := None;
          storedLicenseKey := None |}.
Proof.
  rewrite (sign_in_completes_from_cached_profile quiet_env remote_user
             undated_session orphan_profile ∅ orphan_world).
  - reflexivity.
  - reflexivity.
  - by right.
Defined.

(** ** Remote helpers *)

(** X19.  The remote call an operation is dispatched to ([createRemote],
    [updateRemote] or [deleteRemote] by its type) never touches the local
    store: it makes exactly one remote call, and it returns normally
    exactly when the remote acknowledged or [handleError] returned
    normally. *)
Theorem dispatch_has_no_local_effect (E : Env) (op : PendingOperation)
    (w : World) :
  let a := remote_answer E (trace w) op in
  (SyncService.dispatch E op w).2 = add_events w [remote_event op a] ∧
  ((SyncService.dispatch E op w).1 = Ok tt ↔
   a = None ∨
   ∃ e, a = Some e ∧ handleError E e (remote_failure_message op) = None).
Proof.
  cbv zeta.
  unfold SyncService.dispatch, remote_answer, remote_event,
    remote_failure_message.
  destruct (op_type op);
    unfold SyncService.createRemote, SyncService.updateRemote,
      SyncService.deleteRemote, SyncService.handle, try_catch, bind, call,
      ret, throw, add_events; simpl;
    (destruct (remote_insert E _ _ _) as [e|] eqn:Ha
     || destruct (remote_update E _ _ _ _) as [e|] eqn:Ha
     || destruct (remote_delete E _ _ _) as [e|] eqn:Ha);
    simpl;
    try (destruct (handleError E e _) as [e'|] eqn:Hh; simpl);
    (split; [done|]); split; try done; try (by left);
    try (intros _; right; by exists e);
    by intros [?|(e0 & [= <-] & ?)]; congruence.
Qed.

(** X20.  [fileExists] never throws and never touches the local store;
    it answers [true] exactly when a storage client exists and the
    listing of the path in [processed-data] returned at least one
    entry. *)
Theorem fileExists_contract (E : Env) (path : string) (w : World) :
  ∃ b evs,
    useStorage.fileExists E path w = (Ok b, add_events w evs) ∧
    (b = true ↔
     connector E = true ∧
     ∃ entry entries,
       storage_list E (trace w) "processed-data" path
       = ListData (entry :: entries)).
Proof.
  rewrite fileExists_run. destruct (connector E).
  - eexists _, [_]. split; [done|]. simpl.
    destruct (storage_list E (trace w) "processed-data" path)
      as [[|entry entries]| |e]; simpl; split;
      try done; try (by intros (_ & ? & ? & ?)); by eauto.
  - exists false, []. split.
    + unfold add_events. rewrite app_nil_r. by destruct w.
    + split; [done|]. by intros [? _].
Qed.
